(** * SpellCast word search: a shallow embedding of [src/search.py]

    The class [WordSearch] loads a dictionary, builds a trie from it and
    enumerates the words of a letter board by a trie-pruned depth-first
    search that marks the cells of the current path as absent and restores
    them on the way back.

    Python objects that the source mutates in place (the board, the word
    being assembled, the list of found words) are threaded explicitly
    through the functions; Python exceptions are the [Raise] outcome of
    the [result] monad. *)

From Stdlib Require Import ZArith Ascii String.
From stdpp Require Import gmap strings list fin_maps.

Local Open Scope Z_scope.

(** ** Outcomes of a Python computation *)

(** The two exceptions the search can meet: an index outside a sequence,
    and an attribute read on [None]. *)
Inductive PyError : Type :=
  | IndexError
  | AttributeError.

(** A computation returns a value, raises, or exhausts the recursion
    allowance of the embedding ([OutOfFuel] is no Python outcome: the
    termination theorem shows that it is never produced by the search). *)
Inductive result (A : Type) : Type :=
  | Ok (a : A)
  | Raise (e : PyError)
  | OutOfFuel.

Arguments Ok {A} a.
Arguments Raise {A} e.
Arguments OutOfFuel {A}.

#[global] Instance result_ret : MRet result := @Ok.

#[global] Instance result_bind : MBind result :=
  fun A B (f : A -> result B) (m : result A) =>
    match m with
    | Ok a => f a
    | Raise e => Raise e
    | OutOfFuel => OutOfFuel
    end.

(** A [for] loop over a list whose body may raise: the state is threaded
    from one iteration to the next and the first exception ends the loop. *)
Fixpoint for_each {S E : Type} (body : S -> E -> result S)
    (items : list E) (st : S) : result S :=
  match items with
  | [] => Ok st
  | e :: rest => st' ← body st e; for_each body rest st'
  end.

(** ** Strings *)

(** A Python [str] is the list of its characters. *)
Abbreviation str := (list ascii).

(** [c.isspace()] for the code points below 256. *)
Definition isspace (c : ascii) : bool :=
  let n := nat_of_ascii c in
  ((9 <=? n) && (n <=? 13) || (28 <=? n) && (n <=? 32)
   || (n =? 133) || (n =? 160))%nat.

Fixpoint lstrip (s : str) : str :=
  match s with
  | [] => []
  | c :: s' => if isspace c then lstrip s' else s
  end.

Definition rstrip (s : str) : str := rev (lstrip (rev s)).

(** [s.strip()]: leading and trailing white space removed. *)
Definition strip (s : str) : str := rstrip (lstrip s).

(** ** The trie *)

(** Modelled from the spec: the class [TrieNode] of [src/trie.py], which
    is not among the sources.  A node has the attribute [children], a
    dictionary from a letter to the child node, and the flag
    [is_end_of_word]; [TrieNode()] has no children and a false flag. *)
#[warnings="-register-all"]
Inductive TrieNode : Type :=
  mkTrieNode { is_end_of_word : bool; children : gmap ascii TrieNode }.

Definition TrieNode_new : TrieNode := mkTrieNode false ∅.

(** The body of the outer loop of [_build_trie] for one word, lines 31 to
    36: descend from [node] along the letters of [word], creating the
    children that are missing, and set the flag of the node reached.  The
    in-place updates along the descent are returned as the rebuilt node. *)
Fixpoint insert_word (word : str) (node : TrieNode) : TrieNode :=
  match word with
  | [] => mkTrieNode true (children node)
  | letter :: rest =>
      let child :=
        match children node !! letter with
        | Some c => c
        | None => TrieNode_new
        end in
      mkTrieNode (is_end_of_word node)
                 (<[letter := insert_word rest child]> (children node))
  end.

(** [for word in self.words] visits the set in an order of the
    interpreter's choosing; [_build_trie_from] takes that order as a
    list. *)
Definition _build_trie_from (order : list str) : TrieNode :=
  foldl (fun root word => insert_word word root) TrieNode_new order.

Definition _build_trie (words : gset str) : TrieNode :=
  _build_trie_from (elements words).

(** Walking a letter sequence from a node: [None] as soon as a child is
    missing, else the node reached. *)
Fixpoint walk (node : TrieNode) (s : str) : option TrieNode :=
  match s with
  | [] => Some node
  | letter :: rest =>
      match children node !! letter with
      | Some child => walk child rest
      | None => None
      end
  end.

(** Membership in the language of the trie. *)
Definition is_word (root : TrieNode) (s : str) : bool :=
  match walk root s with
  | Some node => is_end_of_word node
  | None => false
  end.

(** ** Loading the dictionary *)

(** Lines 14 to 18 of [__init__]: every line of the file, stripped, is
    added to the set [self.words]. *)
Definition load_words (lines : list str) : gset str :=
  foldl (fun words line => words ∪ {[ strip line ]}) ∅ lines.

Record WordSearch : Type :=
  mkWordSearch { words : gset str; trie : TrieNode }.

Definition WordSearch_init (lines : list str) : WordSearch :=
  let ws := load_words lines in
  mkWordSearch ws (_build_trie ws).

(** ** Cells, boards, words under assembly, found words *)

(** Modelled from the spec: the class [Cell] of [src/cell.py], which is
    not among the sources: a coordinate and a letter. *)
Record Cell : Type := mkCell { cell_x : Z; cell_y : Z; value : ascii }.

#[global] Instance Cell_eq_dec : EqDecision Cell.
Proof. solve_decision. Defined.

(** Modelled from the spec: the class [Board] of [src/board.py], which is
    not among the sources: a matrix of [ROWS] rows and [COLS] columns of
    optional cells.  The content is a finite map from the coordinate
    [(x, y)] to the cell there, a key without a value being a cell that
    holds [None]. *)
Abbreviation Board := (gmap (Z * Z) Cell).

(** Modelled from the spec: the class [Word] of [src/word.py], which is
    not among the sources: the cells chosen so far, first cell first. *)
Abbreviation Word := (list Cell).

Definition Word_new (cell : Cell) : Word := [cell].

Definition Word_add (w : Word) (cell : Cell) : Word := w ++ [cell].

(** [pop] removes the cell added last and raises on an empty word. *)
Definition Word_pop (w : Word) : result Word :=
  match w with
  | [] => Raise IndexError
  | _ => Ok (removelast w)
  end.

(** [str(word)] and [word._get_path()]: the letters of the cells and
    their coordinates, as values of their own (the spec has a found word
    immutable once it is recorded). *)
Definition Word_str (w : Word) : str := value <$> w.

Definition Word_get_path (w : Word) : list (Z * Z) :=
  (fun c => (cell_x c, cell_y c)) <$> w.

(** Modelled from the spec: the class [WordList] of [src/word.py], which
    is not among the sources.  The embedding keeps the sequence of the
    pairs handed to [_add], in the order of the calls; whatever the class
    keeps of them is drawn from this sequence. *)
Abbreviation WordList := (list (str * list (Z * Z))).

Definition WordList_add (found : WordList) (entry : str * list (Z * Z))
  : WordList := found ++ [entry].

(** Lines 78 and 79: the word under assembly is recorded when the trie
    node ends a word. *)
Definition found_at (node : TrieNode) (current_word : Word)
    (found_words : WordList) : WordList :=
  if is_end_of_word node
  then WordList_add found_words
         (Word_str current_word, Word_get_path current_word)
  else found_words.

(** The eight neighbour offsets, in the order of line 75. *)
Definition directions : list (Z * Z) :=
  [(-1, 0); (-1, 1); (0, 1); (1, 1); (1, 0); (1, -1); (0, -1); (-1, -1)].

(** ** The search *)

Section Search.

(** [Board.ROWS] and [Board.COLS]. *)
Variables ROWS COLS : Z.

(** The coordinates of the board: [find_all_words] takes [x] from
    [range(Board.COLS)] and [y] from [range(Board.ROWS)]. *)
Definition in_bounds (x y : Z) : bool :=
  (0 <=? x) && (x <? COLS) && (0 <=? y) && (y <? ROWS).

(** Modelled from the spec: [Board.get_cell] and [Board.set_cell].  A
    coordinate outside the matrix is an index error, as for the nested
    list a matrix is kept in. *)
Definition get_cell (board : Board) (x y : Z) : result (option Cell) :=
  if in_bounds x y then Ok (board !! (x, y)) else Raise IndexError.

Definition set_cell (board : Board) (x y : Z) (cell : option Cell)
  : result Board :=
  if in_bounds x y then
    Ok match cell with
       | Some c => <[(x, y) := c]> board
       | None => delete (x, y) board
       end
  else Raise IndexError.

(** The test of line 87, as it is written. *)
Definition neighbour_guard (nx ny : Z) : bool :=
  (0 <=? nx) && (nx <? ROWS) && (0 <=? ny) && (ny <? COLS).

(** The state the search updates in place. *)
Definition SearchState : Type := Board * Word * WordList.

(** Lines 86 to 92: the body of the loop over the directions, for the
    offset [d], with [recurse] standing for the call of [self._dfs]. *)
Definition explore_direction
    (recurse : Board -> Z -> Z -> Word -> option TrieNode -> WordList
               -> result SearchState)
    (x y : Z) (node : TrieNode) (st : SearchState) (d : Z * Z)
  : result SearchState :=
  let '(board, current_word, found_words) := st in
  let nx := x + d.1 in
  let ny := y + d.2 in
  if neighbour_guard nx ny then
    next_cell ← get_cell board nx ny;
    match next_cell with
    | Some next =>
        match children node !! value next with
        | Some child =>
            let current_word := Word_add current_word next in
            '(board, current_word, found_words) ←
              recurse board nx ny current_word (Some child) found_words;
            current_word ← Word_pop current_word;
            Ok (board, current_word, found_words)
        | None => Ok st
        end
    | None => Ok st
    end
  else Ok st.

(** [_dfs], lines 60 to 95.  [fuel] bounds the depth of the recursion. *)
Fixpoint _dfs (fuel : nat) (board : Board) (x y : Z)
    (current_word : Word) (node : option TrieNode)
    (found_words : WordList) : result SearchState :=
  match fuel with
  | O => OutOfFuel
  | S fuel =>
      match node with
      | None => Ok (board, current_word, found_words)
      | Some node =>
          let found_words := found_at node current_word found_words in
          temp_cell ← get_cell board x y;
          board ← set_cell board x y None;
          '(board, current_word, found_words) ←
            for_each (explore_direction (_dfs fuel) x y node) directions
                     (board, current_word, found_words);
          board ← set_cell board x y temp_cell;
          Ok (board, current_word, found_words)
      end
  end.

(** The start cells in the order of the two loops of lines 52 and 53. *)
Definition start_cells : list (Z * Z) :=
  y ← seqZ 0 ROWS; x ← seqZ 0 COLS; [(x, y)].

(** The number of cells of the matrix that are present. *)
Definition present_cells (board : Board) : nat :=
  size (filter (fun kv => in_bounds kv.1.1 kv.1.2 = true) board).

(** Every cell of the matrix is present. *)
Definition board_full (board : Board) : Prop :=
  forall x y, in_bounds x y = true -> is_Some (board !! (x, y)).

(** A recursion allowance that the search never exhausts. *)
Definition depth_bound : nat := S (Z.to_nat ROWS * Z.to_nat COLS).

(** Lines 54 to 56: the body of the two loops. *)
Definition search_from (root : TrieNode) (st : Board * WordList)
    (start : Z * Z) : result (Board * WordList) :=
  let '(board, found_words) := st in
  let '(x, y) := start in
  cell ← get_cell board x y;
  match cell with
  | None => Raise AttributeError
  | Some c =>
      '(board, _, found_words) ←
        _dfs depth_bound board x y (Word_new c)
             (children root !! value c) found_words;
      Ok (board, found_words)
  end.

(** [find_all_words], lines 39 to 58. *)
Definition find_all_words (root : TrieNode) (board : Board)
  : result (Board * WordList) :=
  for_each (search_from root) start_cells (board, []).

End Search.

Arguments _dfs : simpl never.
Arguments depth_bound : simpl never.

(** ** Properties stated by the theorems *)

(** Two coordinates are adjacent when the second is the first moved by one
    of the eight offsets. *)
Definition adjacent (p q : Z * Z) : Prop :=
  (q.1 - p.1, q.2 - p.2) ∈ directions.

(** A connected walk: each coordinate is adjacent to the one before it. *)
Fixpoint connected (path : list (Z * Z)) : Prop :=
  match path with
  | p :: rest =>
      match rest with
      | q :: _ => adjacent p q /\ connected rest
      | [] => True
      end
  | [] => True
  end.

(** The cells of a board are stored at their own coordinate. *)
Definition board_positional (board : Board) : Prop :=
  map_Forall (fun p c => cell_x c = p.1 /\ cell_y c = p.2) board.

(** What is asked of a found word: the string is in the dictionary and
    the path is a connected walk without a repeated coordinate. *)
Definition good_entry (ws : gset str) (entry : str * list (Z * Z)) : Prop :=
  entry.1 ∈ ws /\ connected entry.2 /\ NoDup entry.2.

(** What a call of [_dfs] at [(x, y)] relies on: the word under assembly
    ends at [(x, y)], its path is a connected walk without a repeated
    coordinate, and the cells of its earlier coordinates are absent. *)
Definition path_ok (board : Board) (x y : Z) (w : Word) : Prop :=
  last (Word_get_path w) = Some (x, y)
  /\ connected (Word_get_path w)
  /\ NoDup (Word_get_path w)
  /\ forall p, p ∈ Word_get_path w -> p <> (x, y) -> board !! p = None.

(** [s] is a prefix of some word of the set. *)
Definition prefix_of_inserted (ws : gset str) (s : str) : Prop :=
  exists w, w ∈ ws /\ s `prefix_of` w.

(** ** Boards and dictionaries used as examples *)

Definition letters (s : string) : str := list_ascii_of_string s.

Definition board_of (cells : list Cell) : Board :=
  list_to_map ((fun c => ((cell_x c, cell_y c), c)) <$> cells).

(** The 2 by 2 board with the rows [c a] and [t s]. *)
Definition board_cats : Board :=
  board_of [mkCell 0 0 "c"; mkCell 1 0 "a"; mkCell 0 1 "t"; mkCell 1 1 "s"].

(** What [readlines] gives for a line of the dictionary file. *)
Definition line (s : string) : str := letters s ++ ["010"%char].

(** The dictionary file with the lines [cat], [cats] and [at]. *)
Definition lines_cats : list str := [line "cat"; line "cats"; line "at"].

(** The same file with an empty line after the first word. *)
Definition lines_gap : list str := [line "cat"; line ""; line "at"].

(** The 1 by 2 board with the single row [a b]. *)
Definition board_ab : Board := board_of [mkCell 0 0 "a"; mkCell 1 0 "b"].

(** The board [board_cats] without its last cell. *)
Definition board_cat : Board := delete (1, 1) board_cats.

(** The dictionary with the only word [ab], and the child of its trie
    for the letter [a]. *)
Definition words_ab : gset str := {[ letters "ab" ]}.

Definition node_a : TrieNode :=
  default TrieNode_new (children (_build_trie words_ab) !! "a"%char).

(** The trie of the file [lines_cats], and its child for the letter [c]. *)
Definition trie_cats : TrieNode := _build_trie (load_words lines_cats).

Definition node_c : TrieNode :=
  default TrieNode_new (children trie_cats !! "c"%char).

(** What the search records on [board_cats] with that trie. *)
Definition found_cats : WordList :=
  [(letters "cat", [(0, 0); (1, 0); (0, 1)]);
   (letters "cats", [(0, 0); (1, 0); (0, 1); (1, 1)]);
   (letters "at", [(1, 0); (0, 1)])].

(** The cells of [board_cats] that spell [cats]. *)
Definition cells_cats : list Cell :=
  [mkCell 0 0 "c"; mkCell 1 0 "a"; mkCell 0 1 "t"; mkCell 1 1 "s"].

(** Two more dictionaries: the only word [xyz], and the only word [at]. *)
Definition words_xyz : gset str := {[ letters "xyz" ]}.

Definition words_at : gset str := {[ letters "at" ]}.

(** ** Words spelled on a board *)

Section Paths.

Variables ROWS COLS : Z.

(** The step from a cell to the next one of a word: the coordinates
    differ by one of the eight offsets and the coordinate reached passes
    the test of line 87. *)
Definition step_ok (c c' : Cell) : Prop :=
  (cell_x c' - cell_x c, cell_y c' - cell_y c) ∈ directions
  /\ neighbour_guard ROWS COLS (cell_x c') (cell_y c') = true.

Fixpoint chain (cs : list Cell) : Prop :=
  match cs with
  | c :: rest =>
      match rest with
      | c' :: _ => step_ok c c' /\ chain rest
      | [] => True
      end
  | [] => True
  end.

(** The cells [cs] spell a word on the board: they are cells of the
    board at their own coordinate, the first one in the matrix, no
    coordinate twice, and each one a step from the one before it. *)
Definition spells (board : Board) (cs : list Cell) : Prop :=
  (exists c, head cs = Some c
             /\ in_bounds ROWS COLS (cell_x c) (cell_y c) = true)
  /\ (forall c, c ∈ cs -> board !! (cell_x c, cell_y c) = Some c)
  /\ NoDup (Word_get_path cs)
  /\ chain cs.

(** The cells are cells of the matrix. *)
Definition in_matrix (cs : list Cell) : Prop :=
  forall c, c ∈ cs -> in_bounds ROWS COLS (cell_x c) (cell_y c) = true.

(** A pair that the search may record on a board with a trie: the word
    and the path of cells that spell a word of the trie in the matrix. *)
Definition recorded (root : TrieNode) (board : Board)
    (entry : str * list (Z * Z)) : Prop :=
  exists cs,
    spells board cs /\ in_matrix cs
    /\ entry = (Word_str cs, Word_get_path cs)
    /\ is_word root (Word_str cs) = true.

(** The cells [rest] can be visited one after the other from [(x, y)],
    as [_dfs] visits them: each one a step from the one before it, and
    present once the cells before it are removed. *)
Fixpoint follows (board : Board) (x y : Z) (rest : list Cell) : Prop :=
  match rest with
  | [] => True
  | c :: rest' =>
      (cell_x c - x, cell_y c - y) ∈ directions
      /\ neighbour_guard ROWS COLS (cell_x c) (cell_y c) = true
      /\ delete (x, y) board !! (cell_x c, cell_y c) = Some c
      /\ follows (delete (x, y) board) (cell_x c) (cell_y c) rest'
  end.

(** What the search from one start cell records on a board, nothing
    recorded before. *)
Definition found_from (root : TrieNode) (board : Board) (start : Z * Z)
  : WordList :=
  match search_from ROWS COLS root (board, []) start with
  | Ok (_, found) => found
  | _ => []
  end.

End Paths.

(** A list of found words put in front of the list of an outcome. *)
Definition prepend (pre : WordList) (r : result SearchState)
  : result SearchState :=
  match r with
  | Ok (board, w, found) => Ok (board, w, pre ++ found)
  | Raise e => Raise e
  | OutOfFuel => OutOfFuel
  end.

(** * The trie *)

Section TrieFacts.

Implicit Types (node root : TrieNode) (s w : str) (a : ascii).

Lemma walk_new s :
  walk TrieNode_new s = if s is [] then Some TrieNode_new else None.
Proof. by destruct s. Qed.

Lemma walk_app node s1 s2 :
  walk node (s1 ++ s2) = walk node s1 ≫= fun n => walk n s2.
Proof.
  revert node. induction s1 as [|a s1 IH]; intros node; simpl; [done|].
  destruct (children node !! a); [apply IH | done].
Qed.

Lemma walk_single node a : walk node [a] = children node !! a.
Proof. simpl. by destruct (children node !! a). Qed.

Lemma is_word_new s : is_word TrieNode_new s = false.
Proof. unfold is_word. rewrite walk_new. by destruct s. Qed.

Lemma is_word_cons node a s :
  is_word node (a :: s) =
  match children node !! a with Some c => is_word c s | None => false end.
Proof. unfold is_word. simpl. by destruct (children node !! a). Qed.

(** Inserting [w] adds [w] to the language and nothing else. *)
Lemma is_word_insert w : forall node s,
  is_word (insert_word w node) s = bool_decide (s = w) || is_word node s.
Proof.
  induction w as [|l w IH]; intros node s.
  - destruct s as [|a s]; [done|].
    rewrite !is_word_cons. by case_bool_decide.
  - destruct s as [|a s]; [by case_bool_decide|].
    rewrite !is_word_cons. cbn [insert_word children].
    destruct (decide (l = a)) as [->|Hne].
    + rewrite lookup_insert_eq, IH.
      destruct (children node !! a) as [c|];
        rewrite ?is_word_new; repeat case_bool_decide; simplify_eq; done.
    + rewrite lookup_insert_ne by done.
      case_bool_decide; simplify_eq; done.
Qed.

Lemma is_word_foldl order : forall root s,
  is_word (foldl (fun r w => insert_word w r) root order) s = true
  <-> s ∈ order \/ is_word root s = true.
Proof.
  induction order as [|w order IH]; intros root s; simpl.
  - rewrite elem_of_nil. tauto.
  - rewrite IH, is_word_insert, elem_of_cons, orb_true_iff,
      bool_decide_eq_true. tauto.
Qed.

(** The language of the trie is the word set. *)
Lemma is_word_build_trie (ws : gset str) s :
  is_word (_build_trie ws) s = true <-> s ∈ ws.
Proof.
  unfold _build_trie, _build_trie_from.
  rewrite is_word_foldl, is_word_new, elem_of_elements.
  intuition discriminate.
Qed.

(** The sequences that can be walked after an insertion. *)
Lemma walk_insert w : forall node s,
  is_Some (walk (insert_word w node) s)
  <-> s `prefix_of` w \/ is_Some (walk node s).
Proof.
  induction w as [|l w IH]; intros node s.
  - destruct s as [|a s]; simpl.
    + split; [intros _; right; eauto | eauto].
    + split; [by right|]. intros [[k Hk]|H]; [by destruct k | done].
  - destruct s as [|a s]; simpl.
    + split; [intros _; right; eauto | eauto].
    + destruct (decide (l = a)) as [->|Hne].
      * rewrite lookup_insert_eq, IH.
        assert (Hp : a :: s `prefix_of` a :: w <-> s `prefix_of` w).
        { split; [apply prefix_cons_inv_2 | apply prefix_cons]. }
        rewrite Hp.
        destruct (children node !! a) as [c|]; [done|].
        rewrite walk_new. destruct s; [|by rewrite <-!not_eq_None_Some; tauto].
        split; [intros _; left; apply prefix_nil | eauto].
      * rewrite lookup_insert_ne by done.
        split; [by right|]. intros [Hp|H]; [|done].
        apply prefix_cons_inv_1 in Hp. congruence.
Qed.

Lemma walk_foldl order : forall root s,
  is_Some (walk (foldl (fun r w => insert_word w r) root order) s)
  <-> (exists w, w ∈ order /\ s `prefix_of` w) \/ is_Some (walk root s).
Proof.
  induction order as [|w order IH]; intros root s; simpl.
  - split; [by right|]. intros [(w & Hw & _)|H]; [|done].
    by apply elem_of_nil in Hw.
  - rewrite IH, walk_insert. split.
    + intros [(w' & Hw' & Hp)|[Hp|H]].
      * left. exists w'. split; [by right | done].
      * left. exists w. split; [by left | done].
      * by right.
    + intros [(w' & Hw' & Hp)|H]; [|by right; right].
      apply elem_of_cons in Hw' as [->|Hw'].
      * right; by left.
      * left. eauto.
Qed.

(** The sequences that can be walked in the trie of a word set: the
    empty one and the prefixes of the words. *)
Lemma walk_build_trie (ws : gset str) s :
  is_Some (walk (_build_trie ws) s) <-> s = [] \/ prefix_of_inserted ws s.
Proof.
  unfold _build_trie, _build_trie_from, prefix_of_inserted.
  rewrite walk_foldl, walk_new.
  setoid_rewrite elem_of_elements.
  destruct s; split; intros [H|H]; eauto.
  - by destruct H.
  - done.
Qed.

End TrieFacts.

Section TrieLookup.

Variable ws : gset str.

#[local] Instance prefix_of_inserted_dec s : Decision (prefix_of_inserted ws s).
Proof.
  refine (cast_if (decide (Exists (fun w => s `prefix_of` w) (elements ws))));
    unfold prefix_of_inserted; rewrite Exists_exists in *;
    setoid_rewrite elem_of_elements in e
    || setoid_rewrite elem_of_elements in n;
    done.
Defined.

(** A non-empty sequence that is no prefix of a word splits at its
    first diverging letter. *)
Lemma first_divergence s :
  s <> [] -> ~ prefix_of_inserted ws s ->
  exists p a rest,
    s = p ++ a :: rest /\ (p = [] \/ prefix_of_inserted ws p)
    /\ ~ prefix_of_inserted ws (p ++ [a]).
Proof.
  induction s as [|a s IH] using rev_ind; [done|]. intros _ Hn.
  destruct (decide (s = [])) as [->|Hs].
  { exists [], a, []. auto. }
  destruct (decide (prefix_of_inserted ws s)) as [Hp|Hp].
  { exists s, a, []. auto. }
  destruct (IH Hs Hp) as (p & a' & rest & -> & H1 & H2).
  exists p, a', (rest ++ [a]). by rewrite <-app_assoc.
Qed.

Lemma walk_divergence p a :
  p = [] \/ prefix_of_inserted ws p -> ~ prefix_of_inserted ws (p ++ [a]) ->
  exists n, walk (_build_trie ws) p = Some n /\ children n !! a = None.
Proof.
  intros Hp Hn. apply walk_build_trie in Hp as [n Hw]. exists n. split; [done|].
  assert (H : ~ is_Some (walk (_build_trie ws) (p ++ [a]))).
  { rewrite walk_build_trie. intros [H|H]; [by destruct p | done]. }
  rewrite walk_app, Hw in H. simpl in H.
  destruct (children n !! a); [|done]. destruct H; eauto.
Qed.

End TrieLookup.

(** C4.  In the trie built from a word set, the walk along an inserted
    word finds a child at each of its letters and ends on a node whose
    flag [is_end_of_word] is set; the walk along a sequence that is no
    prefix of an inserted word reaches a node for the letters before the
    first diverging letter and finds no child for that letter, so that the
    lookup of the sequence fails. *)
Theorem build_trie_lookup (ws : gset str) :
  (forall w, w ∈ ws ->
     (exists n, walk (_build_trie ws) w = Some n /\ is_end_of_word n = true)
     /\ (forall q a, q ++ [a] `prefix_of` w ->
           exists n c, walk (_build_trie ws) q = Some n
                       /\ children n !! a = Some c))
  /\ (forall s, s <> [] -> ~ prefix_of_inserted ws s ->
        exists p a rest n,
          s = p ++ a :: rest
          /\ (p = [] \/ prefix_of_inserted ws p)
          /\ ~ prefix_of_inserted ws (p ++ [a])
          /\ walk (_build_trie ws) p = Some n
          /\ children n !! a = None
          /\ walk (_build_trie ws) s = None).
Proof.
  split.
  - intros w Hw. apply is_word_build_trie in Hw. unfold is_word in Hw.
    destruct (walk (_build_trie ws) w) as [n|] eqn:Hn; [|done].
    split; [eauto|].
    intros q a [k ->]. rewrite <-app_assoc, walk_app in Hn.
    destruct (walk (_build_trie ws) q) as [m|]; [|done].
    exists m. simpl in Hn. destruct (children m !! a) as [c|]; [eauto | done].
  - intros s Hs Hn.
    destruct (first_divergence ws s Hs Hn) as (p & a & rest & -> & Hp & Hd).
    destruct (walk_divergence ws p a Hp Hd) as (n & Hw & Hc).
    exists p, a, rest, n. repeat split; try done.
    rewrite walk_app, Hw. simpl. by rewrite Hc.
Qed.

Lemma build_trie_lookup_witness :
  (exists n, walk trie_cats (letters "cats") = Some n
             /\ is_end_of_word n = true)
  /\ walk trie_cats (letters "cab") = None.
Proof.
  split.
  - refine (proj1 (proj1 (build_trie_lookup (load_words lines_cats))
                     (letters "cats") _)).
    apply (bool_decide_unpack (letters "cats" ∈ load_words lines_cats)).
    vm_compute. exact I.
  - destruct (proj2 (build_trie_lookup (load_words lines_cats)) (letters "cab"))
      as (p & a & rest & n & _ & _ & _ & _ & _ & H); [done | | exact H].
    apply (@bool_decide_unpack _ (not_dec (prefix_of_inserted_dec _ _))).
    vm_compute. exact I.
Defined.

(** * Loading the dictionary *)

Lemma elem_of_load_from lines : forall (acc : gset str) s,
  s ∈ foldl (fun words line => words ∪ {[ strip line ]}) acc lines
  <-> s ∈ acc \/ exists line, line ∈ lines /\ s = strip line.
Proof.
  induction lines as [|l lines IH]; intros acc s; simpl.
  - split; [by left|]. intros [H|(l & Hl & _)]; [done|].
    by apply elem_of_nil in Hl.
  - rewrite IH, elem_of_union, elem_of_singleton. split.
    + intros [[H| ->]|(l' & Hl' & ->)]; [by left | right..].
      * exists l. split; [by left | done].
      * exists l'. split; [by right | done].
    + intros [H|(l' & Hl' & ->)]; [by left; left|].
      apply elem_of_cons in Hl' as [->|Hl']; [by left; right|].
      right. eauto.
Qed.

Lemma elem_of_load_words lines s :
  s ∈ load_words lines <-> exists line, line ∈ lines /\ s = strip line.
Proof.
  unfold load_words. rewrite elem_of_load_from. split; [|by right].
  intros [H|H]; [|done]. by apply not_elem_of_empty in H.
Qed.

(** C5, as the code has it.  Every line of the file is stripped and added
    to the word set, a line that is empty after stripping included: the
    members of the dictionary are the stripped lines, the trie accepts
    the members and nothing else, and its root is marked as the end of a
    word when some line is empty after stripping. *)
Theorem load_words_keeps_every_line (lines : list str) :
  let ws := WordSearch_init lines in
  (forall s, s ∈ words ws <-> exists l, l ∈ lines /\ s = strip l)
  /\ (forall s, is_word (trie ws) s = true <-> s ∈ words ws)
  /\ (is_end_of_word (trie ws) = true
      <-> exists l, l ∈ lines /\ strip l = []).
Proof.
  cbn. split; [apply elem_of_load_words|].
  split; [apply is_word_build_trie|].
  change (is_end_of_word (_build_trie (load_words lines)))
    with (is_word (_build_trie (load_words lines)) []).
  rewrite is_word_build_trie, elem_of_load_words.
  split; intros (l & Hl & Hs); eauto.
Qed.

(** C5, as the claim has it, fails on a file with an empty line: the line
    is empty after stripping, the empty string is a member of the word
    set, and the root of the trie is marked as the end of a word. *)
Lemma empty_line_is_inserted :
  line "" ∈ lines_gap
  /\ strip (line "") = []
  /\ strip (line "") ∈ words (WordSearch_init lines_gap)
  /\ is_end_of_word (trie (WordSearch_init lines_gap)) = true.
Proof.
  split.
  { apply (bool_decide_unpack (line "" ∈ lines_gap)). vm_compute. exact I. }
  split; [reflexivity|]. split; [|vm_compute; reflexivity].
  apply (bool_decide_unpack (strip (line "") ∈ load_words lines_gap)).
  vm_compute. exact I.
Qed.

(** * Loops and exceptions *)

Section ResultFacts.

Context {A B : Type}.

Lemma bind_Ok (m : result A) (k : A -> result B) r :
  m ≫= k = Ok r -> exists a, m = Ok a /\ k a = Ok r.
Proof. destruct m; simpl; eauto; discriminate. Qed.

Lemma bind_fails (m : result A) (k : A -> result B) r :
  m ≫= k = r -> (forall b, r <> Ok b) ->
  (exists a, m = Ok a /\ k a = r)
  \/ (exists e, m = Raise e /\ r = Raise e)
  \/ (m = OutOfFuel /\ r = OutOfFuel).
Proof. destruct m; simpl; intros <- _; eauto. Qed.

End ResultFacts.

Section ForEach.

Context {S E : Type} (body : S -> E -> result S) (Inv : S -> Prop).

(** A property kept by every iteration that returns holds when the loop
    returns. *)
Lemma for_each_invariant items : forall st st',
  (forall s e s', e ∈ items -> Inv s -> body s e = Ok s' -> Inv s') ->
  Inv st -> for_each body items st = Ok st' -> Inv st'.
Proof.
  induction items as [|e items IH]; intros st st' Hbody Hst Hrun; simpl in Hrun.
  - by inversion Hrun; subst.
  - apply bind_Ok in Hrun as (s1 & H1 & Hrun).
    apply (IH s1); [|by eapply Hbody; [left|..]|done].
    intros s e' s' He'. apply Hbody. by right.
Qed.

(** The outcome of a loop that does not return is the outcome of one
    of its iterations, run from a state of the invariant. *)
Lemma for_each_fails items : forall st r,
  (forall s e s', e ∈ items -> Inv s -> body s e = Ok s' -> Inv s') ->
  Inv st -> for_each body items st = r -> (forall s, r <> Ok s) ->
  exists s e, e ∈ items /\ Inv s /\ body s e = r.
Proof.
  induction items as [|e items IH]; intros st r Hbody Hst Hrun Hr;
    simpl in Hrun; [by destruct (Hr st)|].
  apply bind_fails in Hrun; [|done].
  destruct Hrun as [(s1 & H1 & Hrun)|[(err & H1 & ->)|[H1 ->]]].
  - destruct (IH s1 r) as (s & e' & He' & Hs & Hb); [| |done|done|].
    + intros s e' s' He'. apply Hbody. by right.
    + by eapply Hbody; [left|..].
    + exists s, e'. split; [by right | done].
  - exists st, e. split; [by left | done].
  - exists st, e. split; [by left | done].
Qed.

(** A loop whose iterations all return does return. *)
Lemma for_each_returns items : forall st,
  (forall s e, e ∈ items -> Inv s -> exists s', body s e = Ok s' /\ Inv s') ->
  Inv st -> exists st', for_each body items st = Ok st' /\ Inv st'.
Proof.
  induction items as [|e items IH]; intros st Hbody Hst; simpl; [eauto|].
  destruct (Hbody st e) as (s1 & -> & H1); [by left | done |]. simpl.
  apply IH; [|done]. intros s e' He'. apply Hbody. by right.
Qed.

(** A loop with an iteration that raises from every state of the
    invariant raises, when no iteration exhausts the allowance. *)
Lemma for_each_raises items e0 : forall st,
  (forall s e s', e ∈ items -> Inv s -> body s e = Ok s' -> Inv s') ->
  (forall s e, e ∈ items -> Inv s -> body s e <> OutOfFuel) ->
  e0 ∈ items -> (forall s, Inv s -> exists err, body s e0 = Raise err) ->
  Inv st -> exists err, for_each body items st = Raise err.
Proof.
  induction items as [|e items IH]; intros st Hbody Hfuel He0 Hraise Hst;
    [by apply elem_of_nil in He0|]. simpl.
  destruct (body st e) as [s1|err|] eqn:H1; simpl; [|eauto|].
  - apply elem_of_cons in He0 as [->|He0].
    { destruct (Hraise st Hst) as [err Herr]. congruence. }
    apply IH; [| |done|done|by eapply Hbody; [left|..]].
    + intros s e' s' He'. apply Hbody. by right.
    + intros s e' He'. apply Hfuel. by right.
  - exfalso. by eapply Hfuel; [left|..].
Qed.

End ForEach.

(** Two loops whose bodies agree wherever the first does not exhaust the
    allowance have the same outcome. *)
Lemma for_each_agree {S E : Type} (body1 body2 : S -> E -> result S) items :
  forall st,
    (forall s e, body1 s e <> OutOfFuel -> body2 s e = body1 s e) ->
    for_each body1 items st <> OutOfFuel ->
    for_each body2 items st = for_each body1 items st.
Proof.
  induction items as [|e items IH]; intros st Hb Hrun; simpl in *; [done|].
  destruct (body1 st e) as [s1|err|] eqn:H1; simpl in *; [| |done].
  - rewrite Hb, H1 by congruence. simpl. by apply IH.
  - by rewrite Hb, H1 by congruence.
Qed.

(** * The depth-first search *)

Lemma Word_pop_add (w : Word) (c : Cell) : Word_pop (Word_add w c) = Ok w.
Proof.
  unfold Word_pop, Word_add. rewrite removelast_last. by destruct w.
Qed.

Section SearchFacts.

Variables ROWS COLS : Z.

Implicit Types (board b : Board) (w : Word) (found fw : WordList)
  (node : TrieNode) (x y : Z) (d : Z * Z).

#[local] Abbreviation in_bounds := (in_bounds ROWS COLS).
#[local] Abbreviation get_cell := (get_cell ROWS COLS).
#[local] Abbreviation set_cell := (set_cell ROWS COLS).
#[local] Abbreviation neighbour_guard := (neighbour_guard ROWS COLS).
#[local] Abbreviation explore_direction := (explore_direction ROWS COLS).
#[local] Abbreviation _dfs := (_dfs ROWS COLS).
#[local] Abbreviation search_from := (search_from ROWS COLS).
#[local] Abbreviation find_all_words := (find_all_words ROWS COLS).
#[local] Abbreviation start_cells := (start_cells ROWS COLS).
#[local] Abbreviation depth_bound := (depth_bound ROWS COLS).
#[local] Abbreviation board_full := (board_full ROWS COLS).

Lemma get_cell_Ok b x y oc :
  get_cell b x y = Ok oc <-> in_bounds x y = true /\ oc = b !! (x, y).
Proof.
  unfold get_cell. destruct (in_bounds x y); split;
    try intros [? ?]; try intros ?; simplify_eq; done.
Qed.

(** Setting the saved cell again after a removal gives the board back. *)
Lemma restore_cell b x y :
  match b !! (x, y) with
  | Some c => <[(x, y) := c]> (delete (x, y) b)
  | None => delete (x, y) (delete (x, y) b)
  end = b.
Proof.
  destruct (b !! (x, y)) as [c|] eqn:Hc.
  - rewrite insert_delete_eq. by apply insert_id.
  - by rewrite !delete_id by (by rewrite ?delete_id).
Qed.

(** What [_dfs] computes on a present trie node. *)
Lemma dfs_unfold fuel b x y w node fw :
  _dfs (S fuel) b x y w (Some node) fw =
  (temp_cell ← get_cell b x y;
   board ← set_cell b x y None;
   '(board, current_word, found_words) ←
     for_each (explore_direction (_dfs fuel) x y node) directions
              (board, w, found_at node w fw);
   board ← set_cell board x y temp_cell;
   Ok (board, current_word, found_words)).
Proof. reflexivity. Qed.

(** The call returns exactly when the loop over the directions does,
    from the board without the current cell. *)
Lemma dfs_Ok fuel b x y w node fw st' :
  _dfs (S fuel) b x y w (Some node) fw = Ok st' <->
  in_bounds x y = true /\
  exists b2 w2 fw2,
    for_each (explore_direction (_dfs fuel) x y node) directions
             (delete (x, y) b, w, found_at node w fw) = Ok (b2, w2, fw2)
    /\ st' = (match b !! (x, y) with
              | Some c => <[(x, y) := c]> b2
              | None => delete (x, y) b2
              end, w2, fw2).
Proof.
  rewrite dfs_unfold. unfold get_cell, set_cell.
  destruct (in_bounds x y); cbn -[for_each];
    [|split; [done | by intros [? _]]].
  destruct (for_each _ _ _) as [[[b2 w2] fw2]| |]; simpl.
  - split.
    + intros [= <-]. split; [done|]. by exists b2, w2, fw2.
    + intros [_ (? & ? & ? & [= <- <- <-] & ->)]. done.
  - split; [done|]. by intros [_ (? & ? & ? & ? & _)].
  - split; [done|]. by intros [_ (? & ? & ? & ? & _)].
Qed.

(** The iteration for one direction either leaves the state alone or
    goes through a recursive call on a present neighbour. *)
Lemma explore_direction_Ok recurse x y node b w fw d st' :
  explore_direction recurse x y node (b, w, fw) d = Ok st' ->
  st' = (b, w, fw) \/
  exists next child b1 w1 fw1 w2,
    neighbour_guard (x + d.1) (y + d.2) = true
    /\ in_bounds (x + d.1) (y + d.2) = true
    /\ b !! (x + d.1, y + d.2) = Some next
    /\ children node !! value next = Some child
    /\ recurse b (x + d.1) (y + d.2) (Word_add w next) (Some child) fw
       = Ok (b1, w1, fw1)
    /\ Word_pop w1 = Ok w2
    /\ st' = (b1, w2, fw1).
Proof.
  unfold explore_direction.
  destruct (neighbour_guard _ _) eqn:Hg; [|intros [= <-]; by left].
  intros H. apply bind_Ok in H as (oc & Hc & H).
  apply get_cell_Ok in Hc as [Hb ->].
  destruct (b !! _) as [next|] eqn:Hn; [|inversion H; by left].
  destruct (children node !! value next) as [child|] eqn:Hch;
    [|inversion H; by left].
  apply bind_Ok in H as ([[b1 w1] fw1] & Hrec & H).
  apply bind_Ok in H as (w2 & Hpop & [= <-]).
  right. by exists next, child, b1, w1, fw1, w2.
Qed.

(** The frame of a call: the board and the word under assembly are
    returned as they were received, and the found words only grow. *)
Lemma dfs_frame fuel : forall b x y w onode fw st',
  _dfs fuel b x y w onode fw = Ok st' ->
  exists new, st' = (b, w, fw ++ new).
Proof.
  induction fuel as [|fuel IH]; intros b x y w onode fw st' H; [done|].
  destruct onode as [node|];
    [|inversion H; exists []; by rewrite app_nil_r].
  apply dfs_Ok in H as (Hb & b2 & w2 & fw2 & Hloop & ->).
  apply (for_each_invariant _
           (fun st => exists new, st = (delete (x, y) b, w, fw ++ new)))
    in Hloop.
  - destruct Hloop as [new [= -> -> ->]]. exists new.
    by rewrite restore_cell.
  - intros [[b1 w1] fw1] d st' _ [new [= -> -> ->]] Hd.
    apply explore_direction_Ok in Hd
      as [->|(next & child & b3 & w3 & fw3 & w4
            & _ & _ & _ & _ & Hr & Hp & ->)];
      [eauto|].
    apply IH in Hr as [new' [= -> -> ->]].
    rewrite Word_pop_add in Hp. inversion Hp; subst.
    exists (new ++ new'). by rewrite app_assoc.
  - unfold found_at, WordList_add. destruct (is_end_of_word node); [eauto|].
    exists []. by rewrite app_nil_r.
Qed.

(** ** The cells of the matrix *)

Lemma in_bounds_spec x y :
  in_bounds x y = true <-> 0 <= x < COLS /\ 0 <= y < ROWS.
Proof. unfold in_bounds. rewrite !andb_true_iff. lia. Qed.

Lemma neighbour_guard_spec x y :
  neighbour_guard x y = true <-> 0 <= x < ROWS /\ 0 <= y < COLS.
Proof. unfold neighbour_guard. rewrite !andb_true_iff. lia. Qed.

(** The start cells are the coordinates of the matrix. *)
Lemma elem_of_start_cells x y :
  (x, y) ∈ start_cells <-> in_bounds x y = true.
Proof.
  unfold start_cells. rewrite in_bounds_spec, list_elem_of_bind. split.
  - intros (y' & Hx & Hy). apply list_elem_of_bind in Hx as (x' & Hx & Hx').
    apply list_elem_of_singleton in Hx as [= -> ->].
    apply elem_of_seqZ in Hy, Hx'. lia.
  - intros [Hx Hy]. exists y. split; [|apply elem_of_seqZ; lia].
    apply list_elem_of_bind. exists x. split; [by left|].
    apply elem_of_seqZ. lia.
Qed.

Lemma length_bind_const {A B : Type} (f : A -> list B) (n : nat) l :
  (forall a, length (f a) = n) -> length (l ≫= f) = (length l * n)%nat.
Proof.
  intros Hf. induction l as [|a l IH]; [done|].
  cbn [mbind list_bind length]. rewrite length_app, Hf.
  change (list_bind _ _ f l) with (l ≫= f). rewrite IH. lia.
Qed.

Lemma length_start_cells :
  length start_cells = (Z.to_nat ROWS * Z.to_nat COLS)%nat.
Proof.
  unfold start_cells.
  rewrite (length_bind_const _ (Z.to_nat COLS)), length_seqZ; [done|].
  intros y. rewrite (length_bind_const _ 1%nat), length_seqZ; [lia | done].
Qed.

Lemma size_list_to_set_le (l : list (Z * Z)) :
  (size (list_to_set l : gset (Z * Z)) <= length l)%nat.
Proof.
  induction l as [|p l IH].
  - by rewrite list_to_set_nil, size_empty.
  - rewrite list_to_set_cons, size_union_alt, size_singleton. simpl.
    assert (Hsub : list_to_set l ∖ {[p]} ⊆ (list_to_set l : gset (Z * Z))).
    { apply subseteq_difference_l. reflexivity. }
    apply subseteq_size in Hsub. lia.
Qed.

(** At most [ROWS * COLS] cells are present. *)
Lemma present_cells_bound b :
  (present_cells ROWS COLS b <= Z.to_nat ROWS * Z.to_nat COLS)%nat.
Proof.
  unfold present_cells. rewrite <-length_start_cells, <-size_dom.
  etrans; [apply subseteq_size | apply size_list_to_set_le].
  intros [x y] Hk. apply elem_of_dom in Hk as [c Hc].
  apply map_lookup_filter_Some in Hc as [_ Hc]. simpl in Hc.
  by apply elem_of_list_to_set, elem_of_start_cells.
Qed.

(** Removing a present cell of the matrix leaves one present cell less. *)
Lemma present_cells_delete b x y c :
  in_bounds x y = true -> b !! (x, y) = Some c ->
  present_cells ROWS COLS b = S (present_cells ROWS COLS (delete (x, y) b)).
Proof.
  intros Hb Hc. unfold present_cells.
  assert (H : is_Some (filter (fun kv => in_bounds kv.1.1 kv.1.2 = true) b
                       !! (x, y))).
  { exists c. by apply map_lookup_filter_Some. }
  rewrite map_filter_delete, map_size_delete_Some by done.
  apply map_size_ne_0_lookup_2 in H. lia.
Qed.

Lemma present_cells_delete_le b x y :
  (present_cells ROWS COLS (delete (x, y) b) <= present_cells ROWS COLS b)%nat.
Proof.
  unfold present_cells. rewrite map_filter_delete, map_size_delete.
  destruct (_ !! _); simpl; lia.
Qed.

(** ** Outcomes other than a return *)

Lemma explore_direction_frame fuel x y node b w fw d st' :
  explore_direction (_dfs fuel) x y node (b, w, fw) d = Ok st' ->
  exists new, st' = (b, w, fw ++ new).
Proof.
  intros Hd. apply explore_direction_Ok in Hd
    as [->|(next & child & b3 & w3 & fw3 & w4 & _ & _ & _ & _ & Hr & Hp & ->)].
  { exists []. by rewrite app_nil_r. }
  apply dfs_frame in Hr as [new [= -> -> ->]].
  rewrite Word_pop_add in Hp. inversion Hp; subst. eauto.
Qed.

(** An iteration that does not return has read a coordinate outside
    the matrix, or its recursive call did not return, or the call gave
    back an empty word to pop. *)
Lemma explore_direction_fails recurse x y node b w fw d r :
  explore_direction recurse x y node (b, w, fw) d = r ->
  (forall s, r <> Ok s) ->
  neighbour_guard (x + d.1) (y + d.2) = true /\
  ((in_bounds (x + d.1) (y + d.2) = false /\ r = Raise IndexError)
   \/ exists next child,
       in_bounds (x + d.1) (y + d.2) = true
       /\ b !! (x + d.1, y + d.2) = Some next
       /\ children node !! value next = Some child
       /\ (recurse b (x + d.1) (y + d.2) (Word_add w next) (Some child) fw = r
           \/ exists b1 fw1,
               recurse b (x + d.1) (y + d.2) (Word_add w next) (Some child) fw
               = Ok (b1, [], fw1) /\ r = Raise IndexError)).
Proof.
  unfold explore_direction. intros H Hr.
  destruct (neighbour_guard _ _) eqn:Hg; [|by destruct (Hr (b, w, fw))].
  split; [done|]. unfold get_cell in H.
  destruct (in_bounds _ _) eqn:Hb; simpl in H; [|by left].
  destruct (b !! _) as [next|] eqn:Hn; [|by destruct (Hr (b, w, fw))].
  destruct (children node !! value next) as [child|] eqn:Hch;
    [|by destruct (Hr (b, w, fw))].
  right. exists next, child. repeat split; try done.
  destruct (recurse _ _ _ _ _ _) as [[[b1 w1] fw1]|e|]; simpl in H;
    [|by left..].
  destruct w1; simpl in H; [|by destruct (Hr (b1, removelast (c :: w1), fw1))].
  right. by exists b1, fw1.
Qed.

(** A call on a present trie node that does not return was made at a
    coordinate outside the matrix, or its loop did not return. *)
Lemma dfs_fails fuel b x y w node fw r :
  _dfs (S fuel) b x y w (Some node) fw = r -> (forall s, r <> Ok s) ->
  (in_bounds x y = false /\ r = Raise IndexError)
  \/ (in_bounds x y = true
      /\ for_each (explore_direction (_dfs fuel) x y node) directions
                  (delete (x, y) b, w, found_at node w fw) = r).
Proof.
  rewrite dfs_unfold. unfold get_cell, set_cell. intros H Hr.
  destruct (in_bounds x y); cbn -[for_each] in H; [|by left].
  right. split; [done|].
  destruct (for_each _ _ _) as [[[b2 w2] fw2]|e|]; simpl in H; [|done..].
  by destruct (Hr _ (eq_sym H)).
Qed.

Lemma loop_frame fuel x y node b w :
  forall s d s', d ∈ directions ->
    (exists fw', s = (b, w, fw')) ->
    explore_direction (_dfs fuel) x y node s d = Ok s' ->
    exists fw', s' = (b, w, fw').
Proof.
  intros s d s' _ [fw' ->] Hd.
  apply explore_direction_frame in Hd as [new ->]. eauto.
Qed.

(** ** Termination *)

(** At a present cell the allowance need not exceed the number of
    present cells. *)
Lemma dfs_fuel_present fuel : forall b x y c w onode fw,
  in_bounds x y = true -> b !! (x, y) = Some c ->
  (present_cells ROWS COLS b <= fuel)%nat ->
  _dfs fuel b x y w onode fw <> OutOfFuel.
Proof.
  induction fuel as [|fuel IH]; intros b x y c w onode fw Hb Hc Hn.
  { rewrite (present_cells_delete b x y c) in Hn by done. lia. }
  destruct onode as [node|]; [|done]. intros H.
  apply dfs_fails in H as [[_ ?]|[_ Hloop]]; [done| |done].
  apply (for_each_fails _ (fun s => exists fw', s = (delete (x, y) b, w, fw')))
    in Hloop as (s & d & _ & [fw' ->] & Hd);
    [|apply loop_frame|eauto|done].
  apply explore_direction_fails in Hd
    as [_ [[_ ?]|(next & child & Hb' & Hn' & _ & [Hr|(? & ? & _ & ?)])]];
    [done| |done|done].
  revert Hr. eapply IH; [done..|].
  rewrite (present_cells_delete b x y c) in Hn by done. lia.
Qed.

(** An allowance above the number of present cells is never exhausted. *)
Lemma dfs_fuel fuel b x y w onode fw :
  (present_cells ROWS COLS b < fuel)%nat ->
  _dfs fuel b x y w onode fw <> OutOfFuel.
Proof.
  destruct fuel as [|fuel]; [lia|]. intros Hn.
  destruct onode as [node|]; [|done]. intros H.
  apply dfs_fails in H as [[_ ?]|[_ Hloop]]; [done| |done].
  apply (for_each_fails _ (fun s => exists fw', s = (delete (x, y) b, w, fw')))
    in Hloop as (s & d & _ & [fw' ->] & Hd);
    [|apply loop_frame|eauto|done].
  apply explore_direction_fails in Hd
    as [_ [[_ ?]|(next & child & Hb' & Hn' & _ & [Hr|(? & ? & _ & ?)])]];
    [done| |done|done].
  revert Hr. eapply dfs_fuel_present; [done..|].
  pose proof (present_cells_delete_le b x y). lia.
Qed.

Lemma dfs_depth_bound b x y w onode fw :
  _dfs depth_bound b x y w onode fw <> OutOfFuel.
Proof.
  apply dfs_fuel. unfold depth_bound.
  pose proof (present_cells_bound b). lia.
Qed.

(** ** Exceptions *)

(** On a square matrix a call at a coordinate of the matrix does not
    raise. *)
Lemma dfs_no_raise fuel : ROWS = COLS -> forall b x y w onode fw e,
  in_bounds x y = true -> _dfs fuel b x y w onode fw <> Raise e.
Proof.
  intros Hsq. induction fuel as [|fuel IH]; intros b x y w onode fw e Hb;
    [done|].
  destruct onode as [node|]; [|done]. intros H.
  apply dfs_fails in H as [[? _]|[_ Hloop]]; [congruence| |done].
  apply (for_each_fails _ (fun s => exists fw', s = (delete (x, y) b, w, fw')))
    in Hloop as (s & d & _ & [fw' ->] & Hd);
    [|apply loop_frame|eauto|done].
  apply explore_direction_fails in Hd
    as [Hg [[Hb' _]|(next & child & Hb' & _ & _ & [Hr|(? & ? & Hr & _)])]];
    [| | |done].
  - apply neighbour_guard_spec in Hg.
    apply not_true_iff_false in Hb'. apply Hb', in_bounds_spec. lia.
  - revert Hr. by apply IH.
  - apply dfs_frame in Hr as [new [= _ Hw _]]. by destruct w.
Qed.

(** On a square matrix a call at a coordinate of the matrix returns. *)
Lemma dfs_returns fuel b x y w onode fw :
  ROWS = COLS -> in_bounds x y = true ->
  (present_cells ROWS COLS b < fuel)%nat ->
  exists new, _dfs fuel b x y w onode fw = Ok (b, w, fw ++ new).
Proof.
  intros Hsq Hb Hn.
  destruct (_dfs fuel b x y w onode fw) as [st|e|] eqn:H.
  - apply dfs_frame in H as [new ->]. eauto.
  - by apply dfs_no_raise in H.
  - by apply dfs_fuel in H.
Qed.

(** ** The words found *)

Lemma connected_snoc path p q :
  connected path -> last path = Some p -> adjacent p q ->
  connected (path ++ [q]).
Proof.
  induction path as [|a [|a' path] IH]; intros Hc Hl Ha; [done|..].
  - simpl in *. by simplify_eq.
  - destruct Hc as [Haa Hc]. split; [done|]. by apply IH.
Qed.

Lemma adjacent_direction x y d :
  d ∈ directions -> adjacent (x, y) (x + d.1, y + d.2).
Proof.
  intros Hd. unfold adjacent. simpl.
  by replace (x + d.1 - x, y + d.2 - y) with d
    by (destruct d; simpl; f_equal; lia).
Qed.

(** The word under assembly extended by a present neighbour. *)
Lemma path_ok_step b x y w d next :
  board_positional b -> path_ok b x y w -> d ∈ directions ->
  delete (x, y) b !! (x + d.1, y + d.2) = Some next ->
  path_ok (delete (x, y) b) (x + d.1) (y + d.2) (Word_add w next).
Proof.
  intros Hpos (Hl & Hc & Hnd & Habs) Hd Hn.
  assert (Hxy : (cell_x next, cell_y next) = (x + d.1, y + d.2)).
  { apply lookup_delete_Some in Hn as [_ Hn].
    apply Hpos in Hn as [-> ->]. done. }
  assert (Hold : forall p,
             p ∈ Word_get_path w -> delete (x, y) b !! p = None).
  { intros p Hp. destruct (decide (p = (x, y))) as [->|Hne].
    - apply lookup_delete_eq.
    - rewrite lookup_delete_ne by done. by apply Habs. }
  unfold path_ok, Word_add, Word_get_path in *.
  rewrite fmap_app. simpl. rewrite Hxy.
  split; [by rewrite last_snoc|].
  split; [by eapply connected_snoc, adjacent_direction|].
  split.
  - apply NoDup_app. split; [done|]. split; [|apply NoDup_singleton].
    intros p Hp Hq. apply list_elem_of_singleton in Hq as ->.
    apply Hold in Hp. congruence.
  - intros p Hp Hne. apply elem_of_app in Hp as [Hp|Hp]; [by apply Hold|].
    by apply list_elem_of_singleton in Hp.
Qed.

Lemma board_positional_delete b x y :
  board_positional b -> board_positional (delete (x, y) b).
Proof. intros Hpos p c [_ Hc]%lookup_delete_Some. by apply Hpos. Qed.

(** Every pair that a call records is a word of the dictionary with a
    connected path without a repeated coordinate. *)
Lemma dfs_sound (ws : gset str) fuel : forall b x y w onode fw st',
  board_positional b -> path_ok b x y w ->
  onode = walk (_build_trie ws) (Word_str w) ->
  _dfs fuel b x y w onode fw = Ok st' ->
  exists new, st' = (b, w, fw ++ new) /\ Forall (good_entry ws) new.
Proof.
  induction fuel as [|fuel IH]; intros b x y w onode fw st' Hpos Hw Hnode H;
    [done|].
  destruct onode as [node|];
    [|inversion H; exists []; by rewrite app_nil_r].
  pose proof H as Hfr. apply dfs_frame in Hfr as [all ->].
  apply dfs_Ok in H as (Hb & b2 & w2 & fw2 & Hloop & Hst).
  apply (for_each_invariant _
           (fun st => exists new, st = (delete (x, y) b, w, fw ++ new)
                                  /\ Forall (good_entry ws) new))
    in Hloop.
  - destruct Hloop as (new & [= -> -> ->] & Hgood). exists new.
    split; [|done]. by inversion Hst; simplify_list_eq.
  - intros [[b1 w1] fw1] d st' Hd (new & [= -> -> ->] & Hgood) Hstep.
    apply explore_direction_Ok in Hstep
      as [->|(next & child & b3 & w3 & fw3 & w4
            & _ & _ & Hn & Hc & Hr & Hp & ->)];
      [eauto|].
    apply IH in Hr as (new' & [= -> -> ->] & Hgood').
    + rewrite Word_pop_add in Hp. inversion Hp; subst.
      exists (new ++ new'). rewrite app_assoc. split; [done|].
      by apply Forall_app.
    + by apply board_positional_delete.
    + by apply path_ok_step.
    + unfold Word_str, Word_add. rewrite fmap_app, walk_app.
      change (value <$> w) with (Word_str w). rewrite <-Hnode. simpl.
      by rewrite Hc.
  - unfold found_at, WordList_add.
    destruct (is_end_of_word node) eqn:Hend;
      [|exists []; by rewrite app_nil_r].
    eexists. split; [done|]. apply Forall_singleton.
    destruct Hw as (_ & Hc & Hnd & _). split; [|done]. simpl.
    apply is_word_build_trie. unfold is_word. by rewrite <-Hnode.
Qed.

(** ** The loop over the start cells *)

Lemma search_from_unfold root b fw x y :
  search_from root (b, fw) (x, y) =
  (cell ← get_cell b x y;
   match cell with
   | None => Raise AttributeError
   | Some c =>
       '(board, _, found_words) ←
         _dfs depth_bound b x y (Word_new c) (children root !! value c) fw;
       Ok (board, found_words)
   end).
Proof. reflexivity. Qed.

Lemma search_from_Ok root b fw x y st' :
  search_from root (b, fw) (x, y) = Ok st' ->
  exists c new,
    in_bounds x y = true /\ b !! (x, y) = Some c
    /\ _dfs depth_bound b x y (Word_new c) (children root !! value c) fw
       = Ok (b, Word_new c, fw ++ new)
    /\ st' = (b, fw ++ new).
Proof.
  rewrite search_from_unfold. intros H.
  apply bind_Ok in H as (oc & Hc & H). apply get_cell_Ok in Hc as [Hb ->].
  destruct (b !! (x, y)) as [c|] eqn:Hc; [|done].
  apply bind_Ok in H as ([[b1 w1] fw1] & Hr & [= <-]).
  pose proof Hr as Hfr. apply dfs_frame in Hfr as [new [= -> -> ->]].
  by exists c, new.
Qed.

Lemma search_from_fuel root b fw x y :
  search_from root (b, fw) (x, y) <> OutOfFuel.
Proof.
  rewrite search_from_unfold. unfold get_cell.
  destruct (in_bounds x y); simpl; [|done].
  destruct (b !! (x, y)) as [c|]; [|done].
  pose proof (dfs_depth_bound b x y (Word_new c) (children root !! value c) fw).
  by destruct (_dfs _ _ _ _ _ _ _) as [[[??]?]| |].
Qed.

(** Over the start cells the board stays the one of the call. *)
Lemma search_loop_frame root b :
  forall (s : Board * WordList) (p : Z * Z) s', p ∈ start_cells ->
    (exists fw, s = (b, fw)) -> search_from root s p = Ok s' ->
    exists fw, s' = (b, fw).
Proof.
  intros s [x y] s' _ [fw ->] H.
  apply search_from_Ok in H as (c & new & _ & _ & _ & ->). eauto.
Qed.

Lemma find_all_words_frame root b b' fw :
  find_all_words root b = Ok (b', fw) -> b' = b.
Proof.
  intros H.
  apply (for_each_invariant _ (fun s => exists fw, s = (b, fw))) in H
    as [fw' [= -> ->]]; [done| |eauto].
  apply search_loop_frame.
Qed.

Lemma find_all_words_fuel root b : find_all_words root b <> OutOfFuel.
Proof.
  intros H.
  apply (for_each_fails _ (fun s => exists fw, s = (b, fw))) in H
    as (s & [x y] & _ & [fw ->] & H); [|apply search_loop_frame|eauto|done].
  by apply search_from_fuel in H.
Qed.

(** ** A larger allowance changes nothing *)

Lemma explore_direction_agree rec1 rec2 x y node st d :
  (forall b x y w onode fw,
     rec1 b x y w onode fw <> OutOfFuel ->
     rec2 b x y w onode fw = rec1 b x y w onode fw) ->
  explore_direction rec1 x y node st d <> OutOfFuel ->
  explore_direction rec2 x y node st d = explore_direction rec1 x y node st d.
Proof.
  destruct st as [[b w] fw]. unfold explore_direction. intros Hrec.
  destruct (neighbour_guard _ _); [|done].
  destruct (get_cell _ _ _) as [[next|]| |]; simpl; try done.
  destruct (children node !! value next) as [child|]; [|done].
  intros Hrun. rewrite Hrec; [done|]. intros H. by rewrite H in Hrun.
Qed.

Lemma dfs_fuel_mono n : forall m b x y w onode fw,
  (n <= m)%nat -> _dfs n b x y w onode fw <> OutOfFuel ->
  _dfs m b x y w onode fw = _dfs n b x y w onode fw.
Proof.
  induction n as [|n IH]; intros m b x y w onode fw Hle Hrun;
    [by destruct Hrun|].
  destruct m as [|m]; [lia|]. destruct onode as [node|]; [|done].
  rewrite !dfs_unfold in *. unfold get_cell, set_cell in *.
  destruct (in_bounds x y); cbn -[for_each] in *; [|done].
  rewrite (for_each_agree (explore_direction (_dfs n) x y node)
             (explore_direction (_dfs m) x y node)); [done| |].
  - intros s d. apply explore_direction_agree. intros. apply IH; [lia|done].
  - intros H. by rewrite H in Hrun.
Qed.

(** ** Square matrices *)

Lemma neighbour_guard_square x y :
  ROWS = COLS -> neighbour_guard x y = in_bounds x y.
Proof.
  intros Hsq. apply eq_true_iff_eq.
  rewrite neighbour_guard_spec, in_bounds_spec. lia.
Qed.

Lemma dfs_None fuel b x y w fw :
  _dfs (S fuel) b x y w None fw = Ok (b, w, fw).
Proof. reflexivity. Qed.

Lemma dfs_None_bound b x y w fw :
  _dfs depth_bound b x y w None fw = Ok (b, w, fw).
Proof. reflexivity. Qed.

(** On a square matrix with every cell present the search returns. *)
Lemma find_all_words_returns root b :
  ROWS = COLS -> board_full b ->
  exists fw, find_all_words root b = Ok (b, fw).
Proof.
  intros Hsq Hfull.
  destruct (for_each_returns (search_from root)
              (fun s => exists fw, s = (b, fw)) start_cells (b, []))
    as (s & Hrun & [fw ->]); [|eauto|eauto].
  intros s [x y] Hxy [fw ->]. apply elem_of_start_cells in Hxy.
  destruct (Hfull x y Hxy) as [c Hc].
  destruct (dfs_returns depth_bound b x y (Word_new c)
              (children root !! value c) fw Hsq Hxy) as [new Hr].
  { unfold depth_bound. pose proof (present_cells_bound b). lia. }
  exists (b, fw ++ new). split; [|eauto].
  rewrite search_from_unfold. unfold get_cell. rewrite Hxy. simpl.
  by rewrite Hc, Hr.
Qed.

(** * The claims *)

(** C1.  Every pair that [find_all_words] records, on a board whose
    cells are stored at their own coordinate, has a word of the loaded
    dictionary and a path that is a connected walk, each coordinate
    differing from the one before it by one of the eight offsets, in
    which no coordinate occurs twice. *)
Theorem found_words_sound (ws : gset str) b b' fw word path :
  board_positional b ->
  find_all_words (_build_trie ws) b = Ok (b', fw) ->
  (word, path) ∈ fw ->
  word ∈ ws /\ connected path /\ NoDup path.
Proof.
  intros Hpos Hrun Hin.
  apply (for_each_invariant _
           (fun s => exists new, s = (b, new) /\ Forall (good_entry ws) new))
    in Hrun.
  - destruct Hrun as (new & [= -> ->] & Hgood).
    rewrite Forall_forall in Hgood. by apply Hgood in Hin.
  - intros s [x y] s' _ (new & -> & Hgood) Hs.
    apply search_from_Ok in Hs as (c & new' & Hb & Hc & Hr & ->).
    apply (dfs_sound ws) in Hr as (new'' & [= Heq] & Hgood'); [|done|..].
    + apply app_inv_head in Heq as ->. eexists. split; [done|].
      by apply Forall_app.
    + apply Hpos in Hc as [Hx Hy]. simpl in Hx, Hy.
      unfold path_ok, Word_new, Word_get_path. simpl. rewrite Hx, Hy.
      split; [done|]. split; [done|]. split; [apply NoDup_singleton|].
      intros p Hp. by apply list_elem_of_singleton in Hp.
    + by rewrite <-walk_single.
  - exists []. by split.
Qed.

(** C2.  When [find_all_words] returns, the board is the board of the
    call, cell for cell; so is the board when a call of [_dfs] returns:
    the removal of the current cell is undone before the return. *)
Theorem search_restores_board root b b' fw :
  find_all_words root b = Ok (b', fw) ->
  b' = b
  /\ (forall p, b' !! p = b !! p)
  /\ (forall fuel x y w onode fw0 b1 w1 fw1,
        _dfs fuel b x y w onode fw0 = Ok (b1, w1, fw1) -> b1 = b).
Proof.
  intros ->%find_all_words_frame. split; [done|]. split; [done|].
  intros fuel x y w onode fw0 b1 w1 fw1 [new [= -> _ _]]%dfs_frame. done.
Qed.

(** C7.  A second call of [find_all_words], on the board as the first
    call returned it, returns what the first call returned: the same
    pairs in the same order. *)
Theorem find_all_words_deterministic root b b1 fw1 :
  find_all_words root b = Ok (b1, fw1) ->
  find_all_words root b1 = Ok (b1, fw1).
Proof. intros H. by pose proof (find_all_words_frame _ _ _ _ H) as ->. Qed.

(** C8.  An iteration of the loop over the directions that returns
    gives back the word under assembly as it received it, and only
    adds found words; the recursive call inside it gives back the word
    with the neighbour added, from which [pop] removes that cell. *)
Theorem dfs_backtracks fuel x y node b w fw d b' w' fw' :
  explore_direction (_dfs fuel) x y node (b, w, fw) d = Ok (b', w', fw') ->
  w' = w
  /\ (exists new, fw' = fw ++ new)
  /\ (forall next, Word_pop (Word_add w next) = Ok w)
  /\ (forall next child b1 w1 fw1,
        _dfs fuel b (x + d.1) (y + d.2) (Word_add w next) (Some child) fw
        = Ok (b1, w1, fw1) -> w1 = Word_add w next).
Proof.
  intros [new [= -> -> ->]]%explore_direction_frame.
  split; [done|]. split; [eauto|]. split; [apply Word_pop_add|].
  intros next child b1 w1 fw1 [new' [= _ -> _]]%dfs_frame. done.
Qed.

(** C9.  A call of [_dfs] with an allowance of more than [ROWS * COLS]
    nested calls does not exhaust it and has the outcome it has with
    [ROWS * COLS + 1]; [find_all_words] does not exhaust its allowance
    either.  At most [ROWS * COLS] cells are present, and removing the
    present cell of the call leaves fewer present cells, so that a call
    at a present cell needs no more than [ROWS * COLS] nested calls.  On
    a square matrix with every cell present [find_all_words] returns. *)
Theorem search_terminates root b x y w onode fw fuel :
  (depth_bound <= fuel)%nat ->
  _dfs fuel b x y w onode fw <> OutOfFuel
  /\ _dfs fuel b x y w onode fw = _dfs depth_bound b x y w onode fw
  /\ find_all_words root b <> OutOfFuel
  /\ (present_cells ROWS COLS b <= Z.to_nat ROWS * Z.to_nat COLS)%nat
  /\ (forall c, in_bounds x y = true -> b !! (x, y) = Some c ->
        (present_cells ROWS COLS (delete (x, y) b)
         < present_cells ROWS COLS b)%nat)
  /\ (forall c, in_bounds x y = true -> b !! (x, y) = Some c ->
        _dfs (Z.to_nat ROWS * Z.to_nat COLS) b x y w onode fw <> OutOfFuel)
  /\ (ROWS = COLS -> board_full b ->
      exists found, find_all_words root b = Ok (b, found)).
Proof.
  intros Hle. pose proof (present_cells_bound b) as Hn.
  split; [|split; [|split; [|split; [|split; [|split]]]]];
    [..|by intros c Hb Hc; eapply dfs_fuel_present
       |by apply find_all_words_returns].
  - apply dfs_fuel. unfold depth_bound in Hle. lia.
  - apply dfs_fuel_mono; [done | apply dfs_depth_bound].
  - apply find_all_words_fuel.
  - done.
  - intros c Hb Hc. rewrite (present_cells_delete b x y c) by done. lia.
Qed.

(** C10.  On a board with an absent cell of the matrix the iteration
    of [find_all_words] for that start cell raises on the read of
    [cell.value], and the call raises: it does not skip the cell.  On a
    square matrix the exception of the call is that attribute error.
    An absent neighbour inside [_dfs] is skipped. *)
Theorem find_all_words_needs_present_cells root b x y :
  in_bounds x y = true -> b !! (x, y) = None ->
  (forall fw, search_from root (b, fw) (x, y) = Raise AttributeError)
  /\ (exists err, find_all_words root b = Raise err)
  /\ (ROWS = COLS -> find_all_words root b = Raise AttributeError)
  /\ (forall recurse x0 y0 node w fw d,
        x0 + d.1 = x -> y0 + d.2 = y ->
        explore_direction recurse x0 y0 node (b, w, fw) d = Ok (b, w, fw)).
Proof.
  intros Hb Hc.
  assert (Hstart : forall fw,
             search_from root (b, fw) (x, y) = Raise AttributeError).
  { intros fw. rewrite search_from_unfold. unfold get_cell.
    rewrite Hb. simpl. by rewrite Hc. }
  assert (Hraise : exists err, find_all_words root b = Raise err).
  { apply (for_each_raises _ (fun s => exists fw, s = (b, fw)) _ (x, y)).
    - apply search_loop_frame.
    - intros s [x' y'] _ [fw ->]. apply search_from_fuel.
    - by apply elem_of_start_cells.
    - intros s [fw ->]. eauto.
    - eauto. }
  split; [done|]. split; [done|]. split.
  - intros Hsq. destruct Hraise as [err Hrun]. rewrite Hrun. f_equal.
    apply (for_each_fails _ (fun s => exists fw, s = (b, fw))) in Hrun
      as (s & [x' y'] & Hxy & [fw ->] & H);
      [|apply search_loop_frame|eauto|done].
    apply elem_of_start_cells in Hxy.
    rewrite search_from_unfold in H. unfold get_cell in H.
    rewrite Hxy in H. simpl in H.
    destruct (b !! (x', y')) as [c|]; [|congruence].
    destruct (_dfs _ _ _ _ _ _ _) as [[[??]?]|e|] eqn:Hr; simpl in H;
      [done| |done].
    by apply dfs_no_raise in Hr.
  - intros recurse x0 y0 node w fw d <- <-. unfold explore_direction.
    destruct (neighbour_guard _ _); [|done].
    unfold get_cell. rewrite Hb. simpl. by rewrite Hc.
Qed.

(** C6.  With the empty string as the only word of the dictionary the
    root of the trie ends a word and has no child; [find_all_words]
    records nothing on any board, and on a board with every cell
    present it returns the board and no found word. *)
Theorem empty_word_dictionary b :
  board_full b ->
  is_end_of_word (_build_trie {[ [] ]}) = true
  /\ children (_build_trie {[ [] ]}) = ∅
  /\ find_all_words (_build_trie {[ [] ]}) b = Ok (b, [])
  /\ (forall b0 b' fw,
        find_all_words (_build_trie {[ [] ]}) b0 = Ok (b', fw) -> fw = []).
Proof.
  intros Hfull.
  assert (Hroot : _build_trie {[ [] ]} = mkTrieNode true ∅).
  { unfold _build_trie. by rewrite elements_singleton. }
  rewrite Hroot. split; [done|]. split; [done|].
  assert (Hdfs : forall b0 x y c fw,
             _dfs depth_bound b0 x y (Word_new c)
                  (children (mkTrieNode true ∅) !! value c) fw
             = Ok (b0, Word_new c, fw)).
  { intros. simpl. rewrite lookup_empty. apply dfs_None. }
  split.
  - destruct (for_each_returns (search_from (mkTrieNode true ∅))
                (fun s => s = (b, [])) start_cells (b, []))
      as (s & Hrun & ->); [|done|done].
    intros s [x y] Hxy ->. apply elem_of_start_cells in Hxy.
    destruct (Hfull x y Hxy) as [c Hc]. exists (b, []). split; [|done].
    rewrite search_from_unfold. unfold get_cell. rewrite Hxy. simpl.
    by rewrite Hc, Hdfs.
  - intros b0 b' fw Hrun.
    apply (for_each_invariant _ (fun s => s = (b0, []))) in Hrun;
      [by inversion Hrun| |done].
    intros s [x y] s' _ -> Hs.
    apply search_from_Ok in Hs as (c & new & _ & _ & Hr & ->).
    rewrite Hdfs in Hr. by inversion Hr.
Qed.

End SearchFacts.

(** * The claims on the example boards *)

Lemma board_cats_positional : board_positional board_cats.
Proof.
  apply (bool_decide_unpack (board_positional board_cats)).
  vm_compute. exact I.
Defined.

Lemma board_cats_full : board_full 2 2 board_cats.
Proof.
  intros x y Hb. apply in_bounds_spec in Hb.
  assert (Hx : x = 0 \/ x = 1) by lia. assert (Hy : y = 0 \/ y = 1) by lia.
  destruct Hx as [-> | ->], Hy as [-> | ->]; vm_compute; eauto.
Defined.

Lemma find_all_words_cats :
  find_all_words 2 2 trie_cats board_cats = Ok (board_cats, found_cats).
Proof. vm_compute. reflexivity. Defined.

Lemma found_words_sound_witness :
  board_positional board_cats
  /\ (letters "cats" ∈ load_words lines_cats
      /\ connected [(0, 0); (1, 0); (0, 1); (1, 1)]
      /\ NoDup [(0, 0); (1, 0); (0, 1); (1, 1)]).
Proof.
  split; [exact board_cats_positional|].
  apply (found_words_sound 2 2 (load_words lines_cats) board_cats board_cats
           found_cats).
  - exact board_cats_positional.
  - exact find_all_words_cats.
  - apply (bool_decide_unpack
             ((letters "cats", [(0, 0); (1, 0); (0, 1); (1, 1)])
              ∈ found_cats)).
    vm_compute. exact I.
Defined.

Lemma search_restores_board_witness :
  find_all_words 2 2 trie_cats board_cats = Ok (board_cats, found_cats)
  /\ forall p, board_cats !! p = board_cats !! p.
Proof.
  split; [exact find_all_words_cats|].
  apply (search_restores_board 2 2 trie_cats board_cats board_cats found_cats).
  exact find_all_words_cats.
Defined.

Lemma find_all_words_deterministic_witness :
  find_all_words 2 2 trie_cats board_cats = Ok (board_cats, found_cats).
Proof.
  apply (find_all_words_deterministic 2 2 trie_cats board_cats).
  vm_compute. reflexivity.
Defined.

Lemma dfs_backtracks_witness :
  [mkCell 0 0 "c"] = [mkCell 0 0 "c"]
  /\ exists new,
      [(letters "cat", [(0, 0); (1, 0); (0, 1)]);
       (letters "cats", [(0, 0); (1, 0); (0, 1); (1, 1)])] = [] ++ new.
Proof.
  refine (let H := dfs_backtracks 2 2 4 0 0 node_c (delete (0, 0) board_cats)
                     [mkCell 0 0 "c"] [] (1, 0) (delete (0, 0) board_cats)
                     [mkCell 0 0 "c"]
                     [(letters "cat", [(0, 0); (1, 0); (0, 1)]);
                      (letters "cats", [(0, 0); (1, 0); (0, 1); (1, 1)])] _
          in conj (proj1 H) (proj1 (proj2 H))).
  vm_compute. reflexivity.
Defined.

Lemma search_terminates_witness :
  (depth_bound 2 2 <= 7)%nat
  /\ _dfs 2 2 7 board_cats 0 0 [mkCell 0 0 "c"] (Some node_c) [] <> OutOfFuel.
Proof.
  assert (H : (depth_bound 2 2 <= 7)%nat) by (vm_compute; lia).
  split; [exact H|].
  exact (proj1 (search_terminates 2 2 trie_cats board_cats 0 0
                  [mkCell 0 0 "c"] (Some node_c) [] 7%nat H)).
Defined.

Lemma find_all_words_needs_present_cells_witness :
  board_cat !! (1, 1) = None
  /\ find_all_words 2 2 trie_cats board_cat = Raise AttributeError.
Proof.
  assert (H : board_cat !! (1, 1) = None) by (vm_compute; reflexivity).
  split; [exact H|].
  refine (proj1 (proj2 (proj2 (find_all_words_needs_present_cells 2 2
                                 trie_cats board_cat 1 1 _ H))) _);
    reflexivity.
Defined.

Lemma empty_word_dictionary_witness :
  find_all_words 2 2 (_build_trie {[ [] ]}) board_cats = Ok (board_cats, []).
Proof.
  exact (proj1 (proj2 (proj2 (empty_word_dictionary 2 2 board_cats
                                board_cats_full)))).
Defined.

(** C3, on the matrix of one row and two columns with the row [a b] and
    the dictionary of the only word [ab].  The test of line 87 compares
    [nx] with [ROWS] and [ny] with [COLS], while the matrix has [nx] below
    [COLS] and [ny] below [ROWS]: the neighbour [(1, 0)] of the start
    cell, which is in the matrix, present and a child of the trie node, is
    refused and skipped, and the neighbour [(0, 1)], which is outside the
    matrix, is accepted and read, so that the search raises. *)
Theorem neighbour_guard_swaps_axes :
  let st := (delete (0, 0) board_ab, [mkCell 0 0 "a"], []) in
  in_bounds 1 2 1 0 = true
  /\ neighbour_guard 1 2 1 0 = false
  /\ board_ab !! (1, 0) = Some (mkCell 1 0 "b")
  /\ is_Some (children node_a !! "b"%char)
  /\ explore_direction 1 2 (_dfs 1 2 2) 0 0 node_a st (1, 0) = Ok st
  /\ in_bounds 1 2 0 1 = false
  /\ neighbour_guard 1 2 0 1 = true
  /\ explore_direction 1 2 (_dfs 1 2 2) 0 0 node_a st (0, 1)
     = Raise IndexError
  /\ find_all_words 1 2 (_build_trie words_ab) board_ab = Raise IndexError.
Proof.
  repeat split; try (vm_compute; reflexivity).
  vm_compute. eauto.
Qed.

(** * Further properties of the search *)

(** A property that one iteration establishes and the others keep holds
    when the loop returns. *)
Lemma for_each_reaches {S E : Type} (body : S -> E -> result S)
    (Inv P : S -> Prop) items e0 : forall st st',
  (forall s e s', e ∈ items -> Inv s -> body s e = Ok s' -> Inv s') ->
  (forall s e s', e ∈ items -> Inv s -> P s -> body s e = Ok s' -> P s') ->
  e0 ∈ items -> (forall s s', Inv s -> body s e0 = Ok s' -> P s') ->
  Inv st -> for_each body items st = Ok st' -> P st'.
Proof.
  induction items as [|e items IH]; intros st st' Hinv Hkeep He0 Hgets Hst Hrun;
    [by apply elem_of_nil in He0|].
  simpl in Hrun. apply bind_Ok in Hrun as (s1 & H1 & Hrun).
  assert (Hs1 : Inv s1) by by eapply Hinv; [left|..].
  apply elem_of_cons in He0 as [->|He0].
  - apply (for_each_invariant body (fun s => Inv s /\ P s) items s1);
      [|by eauto|done].
    intros s e' s' He' [Hs Hp] Hb. split.
    + eapply Hinv; [by right|done..].
    + eapply Hkeep; [by right|done..].
  - apply (IH s1); try done.
    + intros s e' s' He'. apply Hinv. by right.
    + intros s e' s' He'. apply Hkeep. by right.
Qed.

(** Every iteration of a loop that returns has returned, from a state
    of the invariant. *)
Lemma for_each_visits {S E : Type} (body : S -> E -> result S)
    (Inv : S -> Prop) items : forall st st',
  (forall s e s', e ∈ items -> Inv s -> body s e = Ok s' -> Inv s') ->
  Inv st -> for_each body items st = Ok st' ->
  forall e, e ∈ items -> exists s s', Inv s /\ body s e = Ok s'.
Proof.
  induction items as [|e0 items IH]; intros st st' Hinv Hst Hrun e He;
    [by apply elem_of_nil in He|].
  simpl in Hrun. apply bind_Ok in Hrun as (s1 & H1 & Hrun).
  apply elem_of_cons in He as [->|He]; [by exists st, s1|].
  apply (IH s1 st'); [|by eapply Hinv; [left|..]|done..].
  intros s e' s' He'. apply Hinv. by right.
Qed.

Section Spelling.

Variables ROWS COLS : Z.

Implicit Types (board b : Board) (w cs : Word) (found fw : WordList)
  (node root : TrieNode) (x y : Z) (d : Z * Z).

#[local] Abbreviation in_bounds := (in_bounds ROWS COLS).
#[local] Abbreviation get_cell := (get_cell ROWS COLS).
#[local] Abbreviation neighbour_guard := (neighbour_guard ROWS COLS).
#[local] Abbreviation explore_direction := (explore_direction ROWS COLS).
#[local] Abbreviation _dfs := (_dfs ROWS COLS).
#[local] Abbreviation search_from := (search_from ROWS COLS).
#[local] Abbreviation find_all_words := (find_all_words ROWS COLS).
#[local] Abbreviation start_cells := (start_cells ROWS COLS).
#[local] Abbreviation depth_bound := (depth_bound ROWS COLS).
#[local] Abbreviation board_full := (board_full ROWS COLS).
#[local] Abbreviation set_cell := (set_cell ROWS COLS).
#[local] Abbreviation step_ok := (step_ok ROWS COLS).
#[local] Abbreviation chain := (chain ROWS COLS).
#[local] Abbreviation spells := (spells ROWS COLS).
#[local] Abbreviation in_matrix := (in_matrix ROWS COLS).
#[local] Abbreviation recorded := (recorded ROWS COLS).
#[local] Abbreviation follows := (follows ROWS COLS).
#[local] Abbreviation found_from := (found_from ROWS COLS).

Lemma chain_snoc cs c c' :
  chain cs -> last cs = Some c -> step_ok c c' -> chain (cs ++ [c']).
Proof.
  induction cs as [|a [|a' cs] IH]; intros Hc Hl Hs; [done|..].
  - simpl in *. by simplify_eq.
  - destruct Hc as [Haa Hc]. split; [done|]. by apply IH.
Qed.

Lemma last_cell x y w :
  last (Word_get_path w) = Some (x, y) ->
  exists c, last w = Some c /\ cell_x c = x /\ cell_y c = y.
Proof.
  unfold Word_get_path. rewrite fmap_last.
  destruct (last w) as [c|]; [|done]. intros [= <- <-]. eauto.
Qed.

Lemma board_positional_weaken b b0 :
  b ⊆ b0 -> board_positional b0 -> board_positional b.
Proof. intros Hsub Hpos p c Hc. eapply Hpos, lookup_weaken; done. Qed.

(** The word under assembly extended by a present neighbour still
    spells a word on the board of the call of [find_all_words]. *)
Lemma spells_step b0 b x y w d next :
  board_positional b0 -> b ⊆ b0 -> spells b0 w -> in_matrix w ->
  path_ok b x y w -> d ∈ directions ->
  neighbour_guard (x + d.1) (y + d.2) = true ->
  in_bounds (x + d.1) (y + d.2) = true ->
  delete (x, y) b !! (x + d.1, y + d.2) = Some next ->
  spells b0 (Word_add w next) /\ in_matrix (Word_add w next).
Proof.
  intros Hpos Hsub ((c0 & Hhd & Hb0) & Hcells & Hnd & Hch) Hin Hpath Hd Hg
    Hb Hn.
  assert (Hn0 : b0 !! (x + d.1, y + d.2) = Some next).
  { apply lookup_delete_Some in Hn as [_ Hn]. by eapply lookup_weaken. }
  pose proof (Hpos _ _ Hn0) as [Hx Hy]. simpl in Hx, Hy.
  destruct (path_ok_step b x y w d next) as (_ & _ & Hnd' & _);
    [by eapply board_positional_weaken|done..|].
  destruct Hpath as (Hl & _). apply last_cell in Hl as (cl & Hl & Hlx & Hly).
  unfold Word_add. split; [split; [|split; [|split]]|].
  - exists c0. split; [|done]. by destruct w.
  - intros c [Hc| ->%list_elem_of_singleton]%elem_of_app; [by apply Hcells|].
    by rewrite Hx, Hy.
  - done.
  - apply (chain_snoc _ cl); [done..|]. split; [|by rewrite Hx, Hy].
    rewrite Hx, Hy, Hlx, Hly.
    by replace (x + d.1 - x, y + d.2 - y) with d
      by (destruct d; simpl; f_equal; lia).
  - intros c [Hc| ->%list_elem_of_singleton]%elem_of_app; [by apply Hin|].
    by rewrite Hx, Hy.
Qed.

(** Every pair that a call records is the word and the path of cells
    that spell a word of the trie on the board. *)
Lemma dfs_recorded root b0 fuel : forall b x y w onode fw st',
  board_positional b0 -> b ⊆ b0 -> spells b0 w -> in_matrix w ->
  path_ok b x y w -> onode = walk root (Word_str w) ->
  _dfs fuel b x y w onode fw = Ok st' ->
  exists new, st' = (b, w, fw ++ new) /\ Forall (recorded root b0) new.
Proof.
  induction fuel as [|fuel IH];
    intros b x y w onode fw st' Hpos Hsub Hsp Hin Hw Hnode H; [done|].
  destruct onode as [node|];
    [|inversion H; exists []; by rewrite app_nil_r].
  pose proof H as Hfr. apply dfs_frame in Hfr as [all ->].
  apply dfs_Ok in H as (Hb & b2 & w2 & fw2 & Hloop & Hst).
  apply (for_each_invariant _
           (fun st => exists new, st = (delete (x, y) b, w, fw ++ new)
                                  /\ Forall (recorded root b0) new))
    in Hloop.
  - destruct Hloop as (new & [= -> -> ->] & Hgood). exists new.
    split; [|done]. by inversion Hst; simplify_list_eq.
  - intros [[b1 w1] fw1] d st' Hd (new & [= -> -> ->] & Hgood) Hstep.
    apply explore_direction_Ok in Hstep
      as [->|(next & child & b3 & w3 & fw3 & w4
              & Hg & Hb' & Hn & Hc & Hr & Hp & ->)];
      [eauto|].
    destruct (spells_step b0 b x y w d next) as [Hsp' Hin']; [done..|].
    apply IH in Hr as (new' & [= -> -> ->] & Hgood'); try done.
    + rewrite Word_pop_add in Hp. inversion Hp; subst.
      exists (new ++ new'). rewrite app_assoc. split; [done|].
      by apply Forall_app.
    + etrans; [apply delete_subseteq|done].
    + apply path_ok_step; [by eapply board_positional_weaken|done..].
    + unfold Word_str, Word_add. rewrite fmap_app, walk_app.
      change (value <$> w) with (Word_str w). rewrite <-Hnode. simpl.
      by rewrite Hc.
  - unfold found_at, WordList_add.
    destruct (is_end_of_word node) eqn:Hend;
      [|exists []; by rewrite app_nil_r].
    eexists. split; [done|]. apply Forall_singleton.
    exists w. split; [done|]. split; [done|]. split; [done|].
    unfold is_word. by rewrite <-Hnode.
Qed.

Lemma find_all_words_recorded root b b' fw :
  board_positional b -> find_all_words root b = Ok (b', fw) ->
  Forall (recorded root b) fw.
Proof.
  intros Hpos Hrun.
  apply (for_each_invariant _
           (fun s => exists new, s = (b, new) /\ Forall (recorded root b) new))
    in Hrun.
  - by destruct Hrun as (new & [= -> ->] & Hgood).
  - intros s [x y] s' _ (new & -> & Hgood) Hs.
    apply search_from_Ok in Hs as (c & new' & Hb & Hc & Hr & ->).
    pose proof (Hpos _ _ Hc) as [Hx Hy]. simpl in Hx, Hy.
    apply (dfs_recorded root b) in Hr as (new'' & [= Heq] & Hgood');
      try done.
    + apply app_inv_head in Heq as ->. eexists. split; [done|].
      by apply Forall_app.
    + split; [|split; [|split]].
      * exists c. by rewrite Hx, Hy.
      * intros c' ->%list_elem_of_singleton. by rewrite Hx, Hy.
      * apply NoDup_singleton.
      * done.
    + intros c' ->%list_elem_of_singleton. by rewrite Hx, Hy.
    + unfold path_ok, Word_new, Word_get_path. simpl. rewrite Hx, Hy.
      split; [done|]. split; [done|]. split; [apply NoDup_singleton|].
      intros p Hp. by apply list_elem_of_singleton in Hp.
    + by rewrite <-walk_single.
  - exists []. by split.
Qed.

(** ** Every word spelled on the board is recorded *)

(** The iteration for the direction of a present neighbour with a child
    in the trie goes through the recursive call. *)
Lemma explore_direction_recurse recurse x y node b w fw d next child st' :
  neighbour_guard (x + d.1) (y + d.2) = true ->
  b !! (x + d.1, y + d.2) = Some next ->
  children node !! value next = Some child ->
  explore_direction recurse x y node (b, w, fw) d = Ok st' ->
  exists b1 w1 fw1 w2,
    recurse b (x + d.1) (y + d.2) (Word_add w next) (Some child) fw
    = Ok (b1, w1, fw1)
    /\ Word_pop w1 = Ok w2 /\ st' = (b1, w2, fw1).
Proof.
  intros Hg Hn Hc. unfold explore_direction. rewrite Hg. intros H.
  apply bind_Ok in H as (oc & Hoc & H). apply get_cell_Ok in Hoc as [_ ->].
  rewrite Hn, Hc in H.
  apply bind_Ok in H as ([[b1 w1] fw1] & Hrec & H).
  apply bind_Ok in H as (w2 & Hpop & [= <-]).
  by exists b1, w1, fw1, w2.
Qed.

Lemma dfs_complete fuel : forall b x y w node fw st' rest n',
  _dfs fuel b x y w (Some node) fw = Ok st' ->
  follows b x y rest ->
  walk node (Word_str rest) = Some n' -> is_end_of_word n' = true ->
  (Word_str (w ++ rest), Word_get_path (w ++ rest)) ∈ st'.2.
Proof.
  induction fuel as [|fuel IH];
    intros b x y w node fw st' rest n' H Hf Hwalk Hend; [done|].
  apply dfs_Ok in H as (Hb & b2 & w2 & fw2 & Hloop & ->). cbn [snd].
  destruct rest as [|c rest].
  - simpl in Hwalk. injection Hwalk as <-. rewrite app_nil_r.
    apply (for_each_invariant _
             (fun st => exists fw', st = (delete (x, y) b, w, fw')
                        /\ (Word_str w, Word_get_path w) ∈ fw'))
      in Hloop.
    + by destruct Hloop as (fw' & [= -> -> ->] & Hin).
    + intros s d s' _ (fw' & -> & Hin) Hd.
      apply explore_direction_frame in Hd as [new ->].
      eexists. split; [done|]. apply elem_of_app. by left.
    + eexists. split; [done|]. unfold found_at, WordList_add.
      rewrite Hend. apply elem_of_app. right. by left.
  - destruct Hf as (Hd & Hg & Hn & Hf). simpl in Hwalk.
    destruct (children node !! value c) as [child|] eqn:Hc; [|done].
    assert (Hx : x + (cell_x c - x, cell_y c - y).1 = cell_x c)
      by (simpl; lia).
    assert (Hy : y + (cell_x c - x, cell_y c - y).2 = cell_y c)
      by (simpl; lia).
    apply (for_each_reaches _
             (fun st => exists fw', st = (delete (x, y) b, w, fw'))
             (fun st => (Word_str (w ++ c :: rest),
                         Word_get_path (w ++ c :: rest)) ∈ st.2)
             _ (cell_x c - x, cell_y c - y)) in Hloop; [done|..|eauto].
    + apply loop_frame.
    + intros s d s' _ [fw' ->] Hin Hstep.
      apply explore_direction_frame in Hstep as [new ->].
      apply elem_of_app. by left.
    + done.
    + intros s s' [fw' ->] Hstep.
      apply (explore_direction_recurse _ _ _ _ _ _ _ _ c child) in Hstep
        as (b1 & w1 & fw1 & w3 & Hr & _ & ->);
        [|by rewrite Hx, Hy..|done].
      rewrite Hx, Hy in Hr.
      apply (IH _ _ _ _ _ _ _ rest n') in Hr; [|done..].
      unfold Word_add in Hr. by rewrite <-app_assoc in Hr.
Qed.

Lemma follows_of_chain rest : forall b c,
  chain (c :: rest) -> NoDup (Word_get_path (c :: rest)) ->
  (forall c', c' ∈ rest -> b !! (cell_x c', cell_y c') = Some c') ->
  follows b (cell_x c) (cell_y c) rest.
Proof.
  induction rest as [|c1 rest IH]; intros b c Hch Hnd Hcells; [done|].
  destruct Hch as [[Hd Hg] Hch].
  change (Word_get_path (c :: c1 :: rest))
    with ((cell_x c, cell_y c) :: Word_get_path (c1 :: rest)) in Hnd.
  apply NoDup_cons in Hnd as [Hc Hnd].
  assert (Hne : forall c', c' ∈ c1 :: rest ->
                  (cell_x c, cell_y c) <> (cell_x c', cell_y c')).
  { intros c' Hc' Heq. apply Hc. rewrite Heq. unfold Word_get_path.
    by apply (list_elem_of_fmap_2 (fun c => (cell_x c, cell_y c))). }
  split; [done|]. split; [done|]. split.
  - rewrite lookup_delete_ne by (apply Hne; by left). apply Hcells. by left.
  - apply IH; [done..|]. intros c' Hc'.
    rewrite lookup_delete_ne by (apply Hne; by right). apply Hcells. by right.
Qed.

Lemma find_all_words_reaches root b b' fw cs :
  find_all_words root b = Ok (b', fw) -> spells b cs ->
  is_word root (Word_str cs) = true ->
  (Word_str cs, Word_get_path cs) ∈ fw.
Proof.
  intros Hrun ((c0 & Hhd & Hb0) & Hcells & Hnd & Hch) Hword.
  destruct cs as [|c rest]; [done|]. injection Hhd as ->.
  change (Word_str (c0 :: rest)) with (value c0 :: Word_str rest) in Hword.
  rewrite is_word_cons in Hword.
  destruct (children root !! value c0) as [node|] eqn:Hnode; [|done].
  unfold is_word in Hword.
  destruct (walk node (Word_str rest)) as [n'|] eqn:Hwalk; [|done].
  apply (for_each_reaches _ (fun s => exists fw', s = (b, fw'))
           (fun s => (Word_str (c0 :: rest), Word_get_path (c0 :: rest))
                     ∈ s.2)
           _ (cell_x c0, cell_y c0)) in Hrun; [done|..|eauto].
  - apply search_loop_frame.
  - intros s [x y] s' _ [fw' ->] Hin Hs.
    apply search_from_Ok in Hs as (c & new & _ & _ & _ & ->).
    apply elem_of_app. by left.
  - by apply elem_of_start_cells.
  - intros s s' [fw' ->] Hs.
    apply search_from_Ok in Hs as (c & new & _ & Hc & Hr & ->).
    rewrite Hcells in Hc by by left. injection Hc as <-.
    rewrite Hnode in Hr.
    apply (dfs_complete _ _ _ _ _ _ _ _ rest n') in Hr; [done| |done..].
    apply follows_of_chain; [done..|]. intros c' Hc'. apply Hcells. by right.
Qed.

(** X1.  When [find_all_words] returns, every word of the dictionary
    that cells of the board spell (present cells at their own coordinate,
    the first one in the matrix, no coordinate twice, each one a step of
    the loop over the directions from the one before it) is recorded,
    with the path of those cells. *)
Theorem find_all_words_complete (ws : gset str) b b' fw cs :
  find_all_words (_build_trie ws) b = Ok (b', fw) ->
  spells b cs -> Word_str cs ∈ ws ->
  (Word_str cs, Word_get_path cs) ∈ fw.
Proof.
  intros Hrun Hsp Hws. eapply find_all_words_reaches; [done..|].
  by apply is_word_build_trie.
Qed.

Lemma spells_reads b cs :
  spells b cs ->
  Forall2 (fun ch p => exists c, b !! p = Some c /\ value c = ch)
          (Word_str cs) (Word_get_path cs).
Proof.
  intros (_ & Hcells & _). unfold Word_str, Word_get_path.
  apply Forall2_fmap, Forall_Forall2_diag, Forall_forall.
  intros c Hc. exists c. split; [by apply Hcells | done].
Qed.

(** X2.  Every pair that [find_all_words] records on a board whose cells
    are stored at their own coordinate is spelled on the board: the word
    is not empty, it has one letter for each coordinate of the path, each
    letter is the letter of the present cell at that coordinate, the word
    is a word of the trie, and the cells of the path are cells of the
    matrix joined by steps of the loop over the directions. *)
Theorem found_words_are_spelled root b b' fw word path :
  board_positional b ->
  find_all_words root b = Ok (b', fw) ->
  (word, path) ∈ fw ->
  word <> []
  /\ length word = length path
  /\ Forall2 (fun ch p => exists c, b !! p = Some c /\ value c = ch) word path
  /\ is_word root word = true
  /\ exists cs,
      spells b cs /\ in_matrix cs
      /\ word = Word_str cs /\ path = Word_get_path cs.
Proof.
  intros Hpos Hrun Hin.
  pose proof (find_all_words_recorded _ _ _ _ Hpos Hrun) as Hrec.
  rewrite Forall_forall in Hrec.
  destruct (Hrec _ Hin) as (cs & Hsp & Hm & [= -> ->] & Hw).
  split; [|split; [|split; [|split]]].
  - destruct Hsp as ((c & Hhd & _) & _). by destruct cs.
  - unfold Word_str, Word_get_path. by rewrite !length_fmap.
  - by apply spells_reads.
  - done.
  - by exists cs.
Qed.

(** X3.  A recorded path lies in the matrix and has no more coordinates
    than the matrix has cells: no recorded word is longer than
    [ROWS * COLS] letters. *)
Theorem found_words_length root b b' fw word path :
  board_positional b ->
  find_all_words root b = Ok (b', fw) ->
  (word, path) ∈ fw ->
  Forall (fun p => in_bounds p.1 p.2 = true) path
  /\ (length path <= Z.to_nat ROWS * Z.to_nat COLS)%nat
  /\ (length word <= Z.to_nat ROWS * Z.to_nat COLS)%nat.
Proof.
  intros Hpos Hrun Hin.
  pose proof (find_all_words_recorded _ _ _ _ Hpos Hrun) as Hrec.
  rewrite Forall_forall in Hrec.
  destruct (Hrec _ Hin) as (cs & Hsp & Hm & [= -> ->] & Hw).
  assert (Hall : Forall (fun p => in_bounds p.1 p.2 = true)
                        (Word_get_path cs)).
  { unfold Word_get_path. apply Forall_fmap, Forall_forall.
    intros c Hc. by apply Hm. }
  assert (Hlen : (length (Word_get_path cs)
                  <= Z.to_nat ROWS * Z.to_nat COLS)%nat).
  { rewrite <-(length_start_cells ROWS COLS).
    destruct Hsp as (_ & _ & Hnd & _).
    apply submseteq_length, NoDup_submseteq; [done|].
    intros [x y] Hp. apply elem_of_start_cells.
    rewrite Forall_forall in Hall. by apply (Hall (x, y)). }
  split; [done|]. split; [done|].
  unfold Word_str. rewrite length_fmap.
  unfold Word_get_path in Hlen. by rewrite length_fmap in Hlen.
Qed.

(** X4.  When no cell of the board carries the first letter of a word of
    the dictionary, and so with an empty dictionary, [find_all_words] on
    a board with every cell present returns the board and no found word,
    for a matrix of any shape. *)
Theorem no_first_letter_no_word (ws : gset str) b :
  board_full b ->
  (forall p c (s : str),
     b !! p = Some c -> s ∈ ws -> head s <> Some (value c)) ->
  find_all_words (_build_trie ws) b = Ok (b, []).
Proof.
  intros Hfull Hnone.
  assert (Hchild : forall p c,
             b !! p = Some c -> children (_build_trie ws) !! value c = None).
  { intros p c Hc. rewrite <-walk_single. apply eq_None_not_Some.
    rewrite walk_build_trie. intros [?|(w & Hw & [k ->])]; [done|].
    by apply (Hnone p c _ Hc Hw). }
  destruct (for_each_returns (search_from (_build_trie ws))
              (fun s => s = (b, [])) start_cells (b, []))
    as (s & Hrun & ->); [|done|done].
  intros s [x y] Hxy ->. apply elem_of_start_cells in Hxy.
  destruct (Hfull x y Hxy) as [c Hc]. exists (b, []). split; [|done].
  rewrite search_from_unfold. unfold get_cell. rewrite Hxy. simpl.
  by rewrite Hc, (Hchild _ _ Hc), dfs_None_bound.
Qed.

(** ** The found words already recorded play no part *)

Lemma found_at_prepend pre node w fw :
  found_at node w (pre ++ fw) = pre ++ found_at node w fw.
Proof.
  unfold found_at, WordList_add. destruct (is_end_of_word node); [|done].
  by rewrite app_assoc.
Qed.

Lemma for_each_prepend pre (body : SearchState -> Z * Z -> result SearchState)
    items :
  (forall b w fw d,
     body (b, w, pre ++ fw) d = prepend pre (body (b, w, fw) d)) ->
  forall b w fw,
    for_each body items (b, w, pre ++ fw)
    = prepend pre (for_each body items (b, w, fw)).
Proof.
  intros Hbody. induction items as [|d items IH]; intros b w fw; [done|].
  simpl. rewrite Hbody.
  destruct (body (b, w, fw) d) as [[[b1 w1] fw1]| |]; simpl; [apply IH|done..].
Qed.

Lemma explore_direction_prepend pre recurse x y node b w fw d :
  (forall b x y w onode fw,
     recurse b x y w onode (pre ++ fw)
     = prepend pre (recurse b x y w onode fw)) ->
  explore_direction recurse x y node (b, w, pre ++ fw) d
  = prepend pre (explore_direction recurse x y node (b, w, fw) d).
Proof.
  intros Hrec. unfold explore_direction.
  destruct (neighbour_guard _ _); [|done].
  destruct (get_cell _ _ _) as [[next|]| |]; simpl; try done.
  destruct (children node !! value next) as [child|]; [|done].
  rewrite Hrec.
  destruct (recurse _ _ _ _ _ _) as [[[b1 w1] fw1]| |]; simpl; try done.
  by destruct (Word_pop w1).
Qed.

(** A call that starts with found words already recorded has the
    outcome of the call that starts with none, with those words in
    front. *)
Lemma dfs_prepend pre fuel : forall b x y w onode fw,
  _dfs fuel b x y w onode (pre ++ fw)
  = prepend pre (_dfs fuel b x y w onode fw).
Proof.
  induction fuel as [|fuel IH]; intros b x y w onode fw; [done|].
  destruct onode as [node|]; [|done].
  rewrite !dfs_unfold. unfold get_cell, set_cell.
  destruct (in_bounds x y) eqn:Hb; cbn -[for_each]; [|done].
  rewrite found_at_prepend, for_each_prepend.
  - by destruct (for_each _ _ _) as [[[b1 w1] fw1]| |].
  - intros. by apply explore_direction_prepend.
Qed.

Lemma search_from_prepend root pre b fw p :
  search_from root (b, pre ++ fw) p
  = match search_from root (b, fw) p with
    | Ok (b1, fw1) => Ok (b1, pre ++ fw1)
    | Raise e => Raise e
    | OutOfFuel => OutOfFuel
    end.
Proof.
  destruct p as [x y]. rewrite !search_from_unfold.
  destruct (get_cell b x y) as [[c|]| |]; simpl; try done.
  rewrite dfs_prepend.
  by destruct (_dfs _ _ _ _ _ _) as [[[b1 w1] fw1]| |].
Qed.

Lemma search_loop_concat root b items : forall acc b' fw,
  for_each (search_from root) items (b, acc) = Ok (b', fw) ->
  fw = acc ++ concat (found_from root b <$> items).
Proof.
  induction items as [|p items IH]; intros acc b' fw Hrun.
  - injection Hrun as _ <-. by rewrite app_nil_r.
  - change (search_from root (b, acc) p ≫= for_each (search_from root) items
            = Ok (b', fw)) in Hrun.
    apply bind_Ok in Hrun as ([b1 fw1] & Hs & Hrun).
    pose proof Hs as Hfr. destruct p as [x y].
    apply search_from_Ok in Hfr as (c & new & _ & _ & _ & [= -> ->]).
    apply IH in Hrun as ->.
    pose proof (search_from_prepend root acc b [] (x, y)) as Hp.
    rewrite app_nil_r, Hs in Hp.
    assert (Hf : found_from root b (x, y) = new).
    { unfold found_from.
      destruct (search_from root (b, []) (x, y)) as [[b2 fw2]| |]; [|done..].
      injection Hp as _ Hp. by apply app_inv_head in Hp. }
    rewrite fmap_cons. cbn [concat]. by rewrite Hf, app_assoc.
Qed.

(** X5.  The searches from the start cells do not interfere: the list
    that [find_all_words] returns is, in the order of the two loops over
    the rows and the columns, the concatenation of what the search from
    each start cell records on the board of the call when it starts with
    no found word; each of those searches returns, with the board as it
    was. *)
Theorem find_all_words_by_start_cell root b b' fw :
  find_all_words root b = Ok (b', fw) ->
  fw = concat (found_from root b <$> start_cells)
  /\ (forall p, p ∈ start_cells ->
        search_from root (b, []) p = Ok (b, found_from root b p)).
Proof.
  intros Hrun. split; [by apply search_loop_concat in Hrun|].
  intros p Hp.
  destruct (for_each_visits _ (fun s => exists fw', s = (b, fw')) _ _ _
              (search_loop_frame ROWS COLS root b) (ex_intro _ [] eq_refl)
              Hrun p Hp) as (s & s' & [acc ->] & Hs).
  pose proof (search_from_prepend root acc b [] p) as Hpre.
  rewrite app_nil_r, Hs in Hpre. unfold found_from.
  destruct (search_from root (b, []) p) as [[b2 fw2]| |] eqn:Hone; [|done..].
  destruct p as [x y].
  by apply search_from_Ok in Hone as (c & new & _ & _ & _ & [= -> ->]).
Qed.

(** ** No pair is recorded twice *)

Lemma prefix_same_length {A : Type} (l1 l2 l : list A) :
  l1 `prefix_of` l -> l2 `prefix_of` l -> length l1 = length l2 -> l1 = l2.
Proof.
  intros H1 H2 Hlen.
  destruct (prefix_weak_total l1 l2 l H1 H2) as [H|H].
  - apply prefix_length_eq; [done|lia].
  - symmetry. apply prefix_length_eq; [done|lia].
Qed.

Lemma NoDup_directions : NoDup directions.
Proof. apply (bool_decide_unpack (NoDup directions)). by vm_compute. Qed.

Lemma NoDup_start_cells : NoDup start_cells.
Proof.
  unfold start_cells. apply NoDup_bind; [| |apply NoDup_seqZ].
  - intros y1 y2 p _ _ (x1 & Hp1 & _)%list_elem_of_bind
      (x2 & Hp2 & _)%list_elem_of_bind.
    apply list_elem_of_singleton in Hp1, Hp2. congruence.
  - intros y _. apply NoDup_bind; [| |apply NoDup_seqZ].
    + intros x1 x2 p _ _ Hp1 Hp2.
      apply list_elem_of_singleton in Hp1, Hp2. congruence.
    + intros x _. apply NoDup_singleton.
Qed.

(** The pairs recorded through different neighbours differ: their paths
    go on with the coordinate of the neighbour. *)
Lemma directions_loop_once recurse x y node b w items :
  board_positional b ->
  (forall nx ny w' onode fw st',
     recurse b nx ny w' onode fw = Ok st' ->
     exists new, st' = (b, w', fw ++ new) /\ NoDup new
                 /\ Forall (fun e => Word_get_path w' `prefix_of` e.2) new) ->
  NoDup items ->
  forall acc st',
    for_each (explore_direction recurse x y node) items (b, w, acc) = Ok st' ->
    exists new,
      st' = (b, w, acc ++ new) /\ NoDup new
      /\ Forall (fun e => exists d, d ∈ items
                    /\ Word_get_path w ++ [(x + d.1, y + d.2)]
                       `prefix_of` e.2) new.
Proof.
  intros Hpos Hrec. induction items as [|d items IH]; intros Hnd acc st' Hrun.
  { injection Hrun as <-. exists []. rewrite app_nil_r.
    split; [done|]. split; [apply NoDup_nil_2|done]. }
  apply NoDup_cons in Hnd as [Hd Hnd].
  change (explore_direction recurse x y node (b, w, acc) d
          ≫= for_each (explore_direction recurse x y node) items = Ok st')
    in Hrun.
  apply bind_Ok in Hrun as (s1 & Hstep & Hrun).
  apply explore_direction_Ok in Hstep
    as [->|(next & child & b3 & w3 & fw3 & w4 & _ & _ & Hn & _ & Hr & Hp & ->)].
  - destruct (IH Hnd _ _ Hrun) as (new & -> & Hnew & Hkeys).
    exists new. split; [done|]. split; [done|].
    eapply Forall_impl; [done|]. intros e (d' & Hd' & He).
    exists d'. split; [by right|done].
  - apply Hrec in Hr as (new1 & [= -> -> ->] & Hnd1 & Hpre1).
    rewrite Word_pop_add in Hp. injection Hp as <-.
    destruct (IH Hnd _ _ Hrun) as (new2 & -> & Hnd2 & Hkeys2).
    pose proof (Hpos _ _ Hn) as [Hx Hy]. simpl in Hx, Hy.
    assert (Hpath : Word_get_path (Word_add w next)
                    = Word_get_path w ++ [(x + d.1, y + d.2)]).
    { unfold Word_get_path, Word_add. rewrite fmap_app. simpl.
      by rewrite Hx, Hy. }
    rewrite Hpath in Hpre1.
    exists (new1 ++ new2). rewrite app_assoc. split; [done|]. split.
    + apply NoDup_app. split; [done|]. split; [|done].
      intros e He1 He2. rewrite Forall_forall in Hpre1, Hkeys2.
      destruct (Hkeys2 _ He2) as (d' & Hd' & Hpre2).
      pose proof (prefix_same_length _ _ _ (Hpre1 _ He1) Hpre2) as Heq.
      rewrite !length_app in Heq. specialize (Heq eq_refl).
      apply app_inv_head in Heq. injection Heq as H1 H2.
      apply Hd. replace d with d'; [done|].
      destruct d, d'; simpl in *; f_equal; lia.
    + apply Forall_app. split.
      * eapply Forall_impl; [done|]. intros e He. exists d.
        split; [by left|done].
      * eapply Forall_impl; [done|]. intros e (d' & Hd' & He).
        exists d'. split; [by right|done].
Qed.

(** A call records no pair twice, and the path of every pair that it
    records begins with the path of the word it received. *)
Lemma dfs_once fuel : forall b x y w onode fw st',
  board_positional b ->
  _dfs fuel b x y w onode fw = Ok st' ->
  exists new,
    st' = (b, w, fw ++ new) /\ NoDup new
    /\ Forall (fun e => Word_get_path w `prefix_of` e.2) new.
Proof.
  induction fuel as [|fuel IH]; intros b x y w onode fw st' Hpos H; [done|].
  destruct onode as [node|]; last first.
  { rewrite dfs_None in H. injection H as <-. exists []. rewrite app_nil_r.
    split; [done|]. split; [apply NoDup_nil_2|done]. }
  pose proof H as Hfr. apply dfs_frame in Hfr as [all ->].
  apply dfs_Ok in H as (Hb & b2 & w2 & fw2 & Hloop & Hst).
  assert (Hpos1 : board_positional (delete (x, y) b))
    by by apply board_positional_delete.
  apply (directions_loop_once _ _ _ _ _ _ _ Hpos1) in Hloop
    as (new & [= -> -> ->] & Hnd & Hkeys);
    [|intros; by eapply IH|apply NoDup_directions].
  injection Hst as _ Hst. unfold found_at, WordList_add in Hst.
  assert (Hlonger : forall e, e ∈ new ->
             Word_get_path w `prefix_of` e.2 /\ e.2 <> Word_get_path w).
  { intros e He. rewrite Forall_forall in Hkeys.
    destruct (Hkeys _ He) as (d & _ & Hpre). split.
    - by eapply prefix_app_l.
    - intros Heq. rewrite Heq in Hpre. by apply prefix_snoc_not in Hpre. }
  destruct (is_end_of_word node).
  - rewrite <-app_assoc in Hst. apply app_inv_head in Hst as ->.
    eexists. split; [done|]. split.
    + simpl. apply NoDup_cons. split; [|done].
      intros He. by destruct (Hlonger _ He) as [_ Hne].
    + apply Forall_cons. split; [done|].
      apply Forall_forall. intros e He. by apply Hlonger.
  - apply app_inv_head in Hst as ->. exists new. split; [done|].
    split; [done|]. apply Forall_forall. intros e He. by apply Hlonger.
Qed.

Lemma search_loop_once root b items :
  board_positional b -> NoDup items ->
  forall acc st',
    for_each (search_from root) items (b, acc) = Ok st' ->
    exists new,
      st' = (b, acc ++ new) /\ NoDup new
      /\ Forall (fun e => exists p, p ∈ items /\ [p] `prefix_of` e.2) new.
Proof.
  intros Hpos. induction items as [|p items IH]; intros Hnd acc st' Hrun.
  { injection Hrun as <-. exists []. rewrite app_nil_r.
    split; [done|]. split; [apply NoDup_nil_2|done]. }
  apply NoDup_cons in Hnd as [Hp Hnd].
  change (search_from root (b, acc) p ≫= for_each (search_from root) items
          = Ok st') in Hrun.
  apply bind_Ok in Hrun as (s1 & Hs & Hrun). destruct p as [x y].
  apply search_from_Ok in Hs as (c & new1 & _ & Hc & Hr & ->).
  apply dfs_once in Hr as (new1' & [= Heq] & Hnd1 & Hpre1); [|done].
  apply app_inv_head in Heq as <-.
  pose proof (Hpos _ _ Hc) as [Hx Hy]. simpl in Hx, Hy.
  change (Word_get_path (Word_new c)) with [(cell_x c, cell_y c)] in Hpre1.
  rewrite Hx, Hy in Hpre1.
  destruct (IH Hnd _ _ Hrun) as (new2 & -> & Hnd2 & Hkeys2).
  exists (new1 ++ new2). rewrite app_assoc. split; [done|]. split.
  - apply NoDup_app. split; [done|]. split; [|done].
    intros e He1 He2. rewrite Forall_forall in Hpre1, Hkeys2.
    destruct (Hkeys2 _ He2) as (p' & Hp' & Hpre2).
    pose proof (prefix_same_length _ _ _ (Hpre1 _ He1) Hpre2 eq_refl) as Heq.
    injection Heq as <-. done.
  - apply Forall_app. split.
    + eapply Forall_impl; [done|]. intros e He. exists (x, y).
      split; [by left|done].
    + eapply Forall_impl; [done|]. intros e (p' & Hp' & He).
      exists p'. split; [by right|done].
Qed.

(** X8.  [find_all_words] hands no pair to [_add] twice: on a board
    whose cells are stored at their own coordinate the pairs it records
    are pairwise distinct, so that a word recorded more than once is
    recorded with different paths. *)
Theorem find_all_words_once root b b' fw :
  board_positional b ->
  find_all_words root b = Ok (b', fw) ->
  NoDup fw
  /\ (forall i j word path1 path2,
        fw !! i = Some (word, path1) -> fw !! j = Some (word, path2) ->
        i <> j -> path1 <> path2).
Proof.
  intros Hpos Hrun.
  apply (search_loop_once _ _ _ Hpos NoDup_start_cells) in Hrun
    as (new & [= -> ->] & Hnd & _).
  split; [done|]. intros i j word path1 path2 Hi Hj Hij Heq. subst.
  apply Hij. eapply NoDup_lookup; done.
Qed.

(** X9.  Adding words to the dictionary loses no found word: a pair
    recorded with the trie of a word set is recorded with the trie of
    every larger word set, when both searches return. *)
Theorem find_all_words_monotone (ws1 ws2 : gset str) b b1 b2 fw1 fw2 entry :
  board_positional b -> ws1 ⊆ ws2 ->
  find_all_words (_build_trie ws1) b = Ok (b1, fw1) ->
  find_all_words (_build_trie ws2) b = Ok (b2, fw2) ->
  entry ∈ fw1 -> entry ∈ fw2.
Proof.
  intros Hpos Hsub Hrun1 Hrun2 Hin.
  pose proof (find_all_words_recorded _ _ _ _ Hpos Hrun1) as Hrec.
  rewrite Forall_forall in Hrec.
  destruct (Hrec _ Hin) as (cs & Hsp & _ & -> & Hw).
  eapply find_all_words_reaches; [done..|].
  apply is_word_build_trie, Hsub. by apply is_word_build_trie.
Qed.

End Spelling.

(** * Further properties of the trie and of the dictionary *)

Lemma insert_word_comm w1 : forall w2 node,
  insert_word w1 (insert_word w2 node) = insert_word w2 (insert_word w1 node).
Proof.
  induction w1 as [|l1 r1 IH]; intros [|l2 r2] node; try done.
  cbn [insert_word children is_end_of_word]. f_equal.
  destruct (decide (l1 = l2)) as [->|Hne].
  - rewrite !lookup_insert_eq, !insert_insert_eq. f_equal. apply IH.
  - rewrite !lookup_insert_ne by done. by apply insert_insert_ne.
Qed.

Lemma insert_word_idem w : forall node,
  insert_word w (insert_word w node) = insert_word w node.
Proof.
  induction w as [|l r IH]; intros node; [done|].
  cbn [insert_word children is_end_of_word]. f_equal.
  rewrite lookup_insert_eq, insert_insert_eq. f_equal. apply IH.
Qed.

Lemma foldl_insert_out w order : forall node,
  foldl (fun r w => insert_word w r) (insert_word w node) order
  = insert_word w (foldl (fun r w => insert_word w r) node order).
Proof.
  induction order as [|w' order IH]; intros node; [done|]. simpl.
  by rewrite insert_word_comm, IH.
Qed.

Lemma foldl_insert_perm order1 order2 :
  order1 ≡ₚ order2 -> forall node,
  foldl (fun r w => insert_word w r) node order1
  = foldl (fun r w => insert_word w r) node order2.
Proof.
  induction 1 as [|w l1 l2 _ IH|w1 w2 l|l1 l2 l3 _ IH1 _ IH2]; intros node;
    simpl.
  - done.
  - apply IH.
  - by rewrite insert_word_comm.
  - by rewrite IH1.
Qed.

(** X10.  The insertion of lines 31 to 36 into any trie adds the word
    to its language and no other string; the sequences that can be walked
    afterwards are those that could be walked before and the prefixes of
    the word; inserting the word again changes nothing. *)
Theorem insert_word_lookup (w : str) (node : TrieNode) :
  (forall s, is_word (insert_word w node) s = true
             <-> s = w \/ is_word node s = true)
  /\ (forall s, is_Some (walk (insert_word w node) s)
                <-> s `prefix_of` w \/ is_Some (walk node s))
  /\ insert_word w (insert_word w node) = insert_word w node.
Proof.
  split; [|split; [apply walk_insert | apply insert_word_idem]].
  intros s. by rewrite is_word_insert, orb_true_iff, bool_decide_eq_true.
Qed.

(** A word more in the set is an insertion more in the trie. *)
Lemma build_trie_insert (ws : gset str) (w : str) :
  _build_trie ({[ w ]} ∪ ws) = insert_word w (_build_trie ws).
Proof.
  unfold _build_trie, _build_trie_from.
  destruct (decide (w ∈ ws)) as [Hin|Hin].
  - rewrite (subseteq_union_1_L {[ w ]} ws)
      by by apply singleton_subseteq_l.
    rewrite (union_difference_singleton_L w ws Hin) at 1 2.
    assert (Hout : w ∉ ws ∖ {[ w ]}).
    { rewrite elem_of_difference, elem_of_singleton. tauto. }
    rewrite (foldl_insert_perm _ (w :: elements (ws ∖ {[ w ]})))
      by by apply elements_union_singleton.
    simpl. by rewrite foldl_insert_out, insert_word_idem.
  - rewrite (foldl_insert_perm _ (w :: elements ws))
      by by apply elements_union_singleton.
    simpl. by rewrite foldl_insert_out.
Qed.

(** X6.  The trie does not depend on the order in which the loop of
    [_build_trie] visits the words, nor on a word visited more than
    once: inserting the words of any list in the order of the list gives
    the trie of the set of its words; in particular every order of the
    set gives the same trie. *)
Theorem build_trie_any_order (order : list str) :
  _build_trie_from order = _build_trie (list_to_set order)
  /\ (forall ws : gset str,
        order ≡ₚ elements ws -> _build_trie_from order = _build_trie ws).
Proof.
  split.
  - induction order as [|w order IH].
    + unfold _build_trie. by rewrite list_to_set_nil, elements_empty.
    + rewrite list_to_set_cons, build_trie_insert, <-IH.
      unfold _build_trie_from. simpl. apply foldl_insert_out.
  - intros ws Hperm. unfold _build_trie, _build_trie_from.
    by apply foldl_insert_perm.
Qed.

(** ** Stripped lines *)

Lemma lstrip_head s c : head (lstrip s) = Some c -> isspace c = false.
Proof.
  induction s as [|a s IH]; simpl; [done|].
  destruct (isspace a) eqn:Ha; [done|]. by intros [= <-].
Qed.

Lemma lstrip_id s :
  (forall c, head s = Some c -> isspace c = false) -> lstrip s = s.
Proof. destruct s as [|a s]; simpl; [done|]. intros H. by rewrite H. Qed.

Lemma lstrip_snoc s c :
  isspace c = false -> lstrip (s ++ [c]) = lstrip s ++ [c].
Proof.
  intros Hc. induction s as [|a s IH]; simpl; [by rewrite Hc|].
  by destruct (isspace a).
Qed.

Lemma last_rev {A : Type} (l : list A) : last (rev l) = head l.
Proof. destruct l as [|a l]; [done|]. simpl. apply last_snoc. Qed.

Lemma rstrip_cons c s : isspace c = false -> rstrip (c :: s) = c :: rstrip s.
Proof.
  intros Hc. unfold rstrip. simpl. by rewrite lstrip_snoc, rev_unit.
Qed.

Lemma rstrip_idem s : rstrip (rstrip s) = rstrip s.
Proof.
  unfold rstrip. rewrite rev_involutive. f_equal.
  apply lstrip_id, lstrip_head.
Qed.

Lemma rstrip_last s c : last (rstrip s) = Some c -> isspace c = false.
Proof. unfold rstrip. rewrite last_rev. apply lstrip_head. Qed.

(** A stripped line is empty or begins with a character that is no
    white space, which stripping the right end leaves in place. *)
Lemma strip_cases s :
  strip s = []
  \/ exists c t, isspace c = false /\ strip s = c :: rstrip t.
Proof.
  unfold strip. destruct (lstrip s) as [|c t] eqn:Hs; [by left|]. right.
  assert (Hc : isspace c = false) by (apply (lstrip_head s); by rewrite Hs).
  exists c, t. split; [done|]. by apply rstrip_cons.
Qed.

Lemma strip_idem s : strip (strip s) = strip s.
Proof.
  destruct (strip_cases s) as [->|(c & t & Hc & ->)]; [done|].
  unfold strip. simpl. rewrite Hc, rstrip_cons by done.
  by rewrite rstrip_idem.
Qed.

(** X7.  Every word of the dictionary that [__init__] loads is stripped:
    stripping it again changes nothing, and it neither begins nor ends
    with a white space character. *)
Theorem loaded_words_are_stripped (lines : list str) (w : str) :
  w ∈ words (WordSearch_init lines) ->
  strip w = w
  /\ (forall c, head w = Some c -> isspace c = false)
  /\ (forall c, last w = Some c -> isspace c = false).
Proof.
  cbn. intros (l & _ & ->)%elem_of_load_words.
  split; [apply strip_idem|]. split.
  - intros c. destruct (strip_cases l) as [->|(c' & t & Hc & ->)]; [done|].
    by intros [= <-].
  - intros c. unfold strip. apply rstrip_last.
Qed.

(** * The further properties on the example boards *)

Lemma cells_cats_spell : spells 2 2 board_cats cells_cats.
Proof.
  split; [|split; [|split]].
  - exists (mkCell 0 0 "c"). split; reflexivity.
  - intros c Hc. apply list_elem_of_In in Hc. simpl in Hc.
    destruct Hc as [<-|[<-|[<-|[<-|[]]]]]; vm_compute; reflexivity.
  - apply (bool_decide_unpack (NoDup (Word_get_path cells_cats))).
    vm_compute. exact I.
  - repeat split;
      try (apply (bool_decide_unpack (_ ∈ directions)); vm_compute; exact I).
Defined.

Lemma find_all_words_complete_witness :
  (letters "cats", [(0, 0); (1, 0); (0, 1); (1, 1)]) ∈ found_cats.
Proof.
  apply (find_all_words_complete 2 2 (load_words lines_cats) board_cats
           board_cats found_cats cells_cats).
  - exact find_all_words_cats.
  - exact cells_cats_spell.
  - apply (bool_decide_unpack (Word_str cells_cats ∈ load_words lines_cats)).
    vm_compute. exact I.
Defined.

Lemma cats_found :
  (letters "cats", [(0, 0); (1, 0); (0, 1); (1, 1)]) ∈ found_cats.
Proof.
  apply (bool_decide_unpack
           ((letters "cats", [(0, 0); (1, 0); (0, 1); (1, 1)]) ∈ found_cats)).
  vm_compute. exact I.
Defined.

Lemma found_words_are_spelled_witness :
  letters "cats" <> []
  /\ length (letters "cats") = length [(0, 0); (1, 0); (0, 1); (1, 1)].
Proof.
  refine (let H := found_words_are_spelled 2 2 trie_cats board_cats board_cats
                     found_cats (letters "cats")
                     [(0, 0); (1, 0); (0, 1); (1, 1)]
                     board_cats_positional find_all_words_cats cats_found
          in conj (proj1 H) (proj1 (proj2 H))).
Defined.

Lemma found_words_length_witness :
  (length (letters "cats") <= Z.to_nat 2 * Z.to_nat 2)%nat.
Proof.
  exact (proj2 (proj2 (found_words_length 2 2 trie_cats board_cats board_cats
                         found_cats (letters "cats")
                         [(0, 0); (1, 0); (0, 1); (1, 1)]
                         board_cats_positional find_all_words_cats
                         cats_found))).
Defined.

Lemma board_cats_no_x :
  forall p c (s : str),
    board_cats !! p = Some c -> s ∈ words_xyz -> head s <> Some (value c).
Proof.
  intros p c s Hc ->%elem_of_singleton.
  assert (H : map_Forall (fun _ c => value c <> "x"%char) board_cats).
  { apply (bool_decide_unpack
             (map_Forall (fun _ c => value c <> "x"%char) board_cats)).
    vm_compute. exact I. }
  intros [= Hx]. by apply (H p c Hc).
Defined.

Lemma no_first_letter_no_word_witness :
  find_all_words 2 2 (_build_trie words_xyz) board_cats = Ok (board_cats, []).
Proof.
  exact (no_first_letter_no_word 2 2 words_xyz board_cats board_cats_full
           board_cats_no_x).
Defined.

Lemma find_all_words_by_start_cell_witness :
  found_cats = concat (found_from 2 2 trie_cats board_cats <$> start_cells 2 2).
Proof.
  exact (proj1 (find_all_words_by_start_cell 2 2 trie_cats board_cats
                  board_cats found_cats find_all_words_cats)).
Defined.

Lemma loaded_words_are_stripped_witness :
  letters "cat" ∈ words (WordSearch_init lines_cats)
  /\ strip (letters "cat") = letters "cat".
Proof.
  assert (H : letters "cat" ∈ words (WordSearch_init lines_cats)).
  { apply (bool_decide_unpack (letters "cat" ∈ load_words lines_cats)).
    vm_compute. exact I. }
  split; [exact H|].
  exact (proj1 (loaded_words_are_stripped lines_cats (letters "cat") H)).
Defined.

Lemma find_all_words_once_witness : NoDup found_cats.
Proof.
  exact (proj1 (find_all_words_once 2 2 trie_cats board_cats board_cats
                  found_cats board_cats_positional find_all_words_cats)).
Defined.

Lemma find_all_words_monotone_witness :
  (letters "at", [(1, 0); (0, 1)]) ∈ found_cats.
Proof.
  apply (find_all_words_monotone 2 2 words_at (load_words lines_cats)
           board_cats board_cats board_cats
           [(letters "at", [(1, 0); (0, 1)])] found_cats).
  - exact board_cats_positional.
  - intros s ->%elem_of_singleton.
    apply (bool_decide_unpack (letters "at" ∈ load_words lines_cats)).
    vm_compute. exact I.
  - vm_compute. reflexivity.
  - exact find_all_words_cats.
  - apply list_elem_of_here.
Defined.
